(** * The Huber atom of CVXPY: a shallow embedding and its contract

    Source: [cvxpy/atoms/elementwise/huber.py], class [huber(Elementwise)].

    Numbers.  Python floats are embedded as exact rationals [Q]; rounding,
    NaN and overflow are outside the model.  The one non-finite value that
    the code can produce on purpose, [inf] (returned by
    [scipy.special.huber] for a negative [delta]), is kept in the type
    [ext].  Equality of numbers is [Qeq] ([==]).

    Tensors.  An elementwise atom never looks at the shape of its argument
    value, so a tensor value is its list of entries in column-major order
    (the order [ravel(order='F')] produces). *)

From Stdlib Require Import QArith Qabs Qminmax Lqa Lia.
From Stdlib Require Import String List Bool Arith.
Import ListNotations.

Local Open Scope Q_scope.

(** ** Python values the atom can raise or return *)

Inductive exn : Type :=
| ValueError (msg : string)
| IndexError
| TypeError.

(** The outcome of a Python call: an exception or a value. *)
Definition result (A : Type) : Type := (exn + A)%type.

Definition ok {A} (a : A) : result A := inr a.
Definition raise {A} (e : exn) : result A := inl e.

Definition rbind {A B} (c : result A) (k : A -> result B) : result B :=
  match c with
  | inl e => inl e
  | inr a => k a
  end.

(** [l[0]] on a Python list. *)
Definition index0 {A} (l : list A) : result A :=
  match l with
  | [] => raise IndexError
  | a :: _ => ok a
  end.

(** [l[idx]] for a non-negative index. *)
Definition index {A} (l : list A) (idx : nat) : result A :=
  match nth_error l idx with
  | Some a => ok a
  | None => raise IndexError
  end.

(** ** Numbers *)

(** A float that is finite or [+inf]. *)
Inductive ext : Type :=
| Fin (q : Q)
| PInf.

(** [c * e] for a positive finite [c]. *)
Definition ext_scale (c : Q) (e : ext) : ext :=
  match e with
  | Fin q => Fin (c * q)
  | PInf => PInf
  end.

Definition Qlt_bool (a b : Q) : bool := negb (Qle_bool b a).

(** [np.sign]. *)
Definition np_sign (x : Q) : Q :=
  match x ?= 0 with
  | Lt => -1
  | Eq => 0
  | Gt => 1
  end.

(** [scipy.special.huber(delta, r)], from SciPy's definition
    ([inf] if [delta < 0]; [r**2 / 2] if [|r| <= delta];
    [delta * (|r| - delta / 2)] otherwise). *)
Definition scipy_huber (delta r : Q) : ext :=
  if Qlt_bool delta 0 then PInf
  else if Qle_bool (Qabs r) delta then Fin ((1 # 2) * r * r)
  else Fin (delta * (Qabs r - (1 # 2) * delta)).

(** ** Expressions, as far as the atom inspects them

    [huber.py] asks an expression for its declared sign, its constancy, its
    scalarity, its size, its current value and whether it is a
    [Parameter].  The record has one field per query. *)

Inductive expr_class : Type :=
| ClsConstant
| ClsParameter
| ClsVariable
| ClsOther.

Record Expression : Type := mkExpression {
  cls : expr_class;
  is_nonneg : bool;
  is_nonpos : bool;
  is_constant : bool;
  is_scalar : bool;
  size : nat;
  value : option Q
}.

Definition isinstance_Parameter (e : Expression) : bool :=
  match cls e with
  | ClsParameter => true
  | _ => false
  end.

(** Modelled from the spec: [Constant(v)] of [cvxpy.expressions.constants]
    is not in the sources at hand.  A numeric scalar wrapped as a constant
    is constant-valued, scalar, carries its literal value, and is
    sign-nonnegative (sign-nonpositive) exactly when the number is. *)
Definition Constant (v : Q) : Expression :=
  {| cls := ClsConstant;
     is_nonneg := Qle_bool 0 v;
     is_nonpos := Qle_bool v 0;
     is_constant := true;
     is_scalar := true;
     size := 1;
     value := Some v |}.

(** What a caller may pass for [M]: [int/float or Parameter] (or any other
    expression). *)
Inductive py_arg : Type :=
| Num (v : Q)
| Expr (e : Expression).

(** Modelled from the spec: [Expression.cast_to_const] is not in the
    sources at hand; it leaves an expression alone and wraps a raw number
    as a constant. *)
Definition cast_to_const (a : py_arg) : Expression :=
  match a with
  | Num v => Constant v
  | Expr e => e
  end.

(** ** The atom *)

Record huber : Type := mk_huber {
  M : Expression;
  args : list Expression
}.

(** [numeric]: one scalar position. *)
Definition huber_elem (m x : Q) : ext := ext_scale 2 (scipy_huber m x).

(** [numeric(self, values)]:
    [2*scipy.special.huber(self.M.value, values[0])]. *)
Definition numeric (self : huber) (values : list (list Q)) : result (list ext) :=
  match value (M self) with
  | None => raise TypeError
  | Some m => rbind (index0 values) (fun v0 => ok (map (huber_elem m) v0))
  end.

Definition sign_from_args (self : huber) : bool * bool := (true, false).

Definition is_atom_convex (self : huber) : bool := true.

Definition is_atom_concave (self : huber) : bool := false.

Definition is_incr (self : huber) (idx : nat) : result bool :=
  rbind (index (args self) idx) (fun a => ok (is_nonneg a)).

Definition is_decr (self : huber) (idx : nat) : result bool :=
  rbind (index (args self) idx) (fun a => ok (is_nonpos a)).

Definition get_data (self : huber) : list Expression := [M self].

Definition validate_arguments (self : huber) : result unit :=
  if negb (is_nonneg (M self) && is_constant (M self) && is_scalar (M self))
  then raise (ValueError "M must be a non-negative scalar constant.")
  else ok tt.

(** Modelled from the spec: [Atom.__init__] is not in the sources at hand.
    Construction stores the arguments cast to expressions and runs the
    validation gate once; a validation error aborts construction and no
    atom is returned. *)
Definition Atom_init (m : Expression) (xs : list py_arg) : result huber :=
  let self := {| M := m; args := map cast_to_const xs |} in
  rbind (validate_arguments self) (fun _ => ok self).

(** [huber.__init__(self, x, M=1)]:
    [self.M = self.cast_to_const(M); super().__init__(x)]. *)
Definition huber_init (x : py_arg) (M_arg : option py_arg) : result huber :=
  let m := match M_arg with
           | None => Num 1
           | Some a => a
           end in
  Atom_init (cast_to_const m) [x].

(** ** The subgradient *)

(** A sparse matrix with entries on the main diagonal only. *)
Record diag_matrix : Type := mk_diag {
  nrows : nat;
  ncols : nat;
  diagonal : list Q
}.

Definition entry (D : diag_matrix) (j k : nat) : Q :=
  if ((j =? k) && (j <? nrows D) && (k <? ncols D))%nat
  then nth j (diagonal D) 0
  else 0.

(** Modelled from the spec: [Elementwise.elemwise_grad_to_diag] is not in
    the sources at hand; it lays the per-element derivatives out on the
    diagonal of a sparse [rows x cols] matrix. *)
Definition elemwise_grad_to_diag (vals : list Q) (rows cols : nat) : diag_matrix :=
  {| nrows := rows; ncols := cols; diagonal := vals |}.

(** Modelled from the spec: [self.size] comes from
    [Elementwise.shape_from_args], not in the sources at hand; the output
    of a one-argument elementwise atom has the shape of its argument. *)
Definition atom_size (self : huber) : result nat :=
  rbind (index0 (args self)) (fun a => ok (size a)).

(** One scalar position of [grad_vals]. *)
Definition grad_elem (m x : Q) : Q := 2 * (np_sign x * Qmin (Qabs x) m).

(** [_grad(self, values)]. *)
Definition _grad (self : huber) (values : list (list Q)) : result (list diag_matrix) :=
  rbind (index0 (args self)) (fun a0 =>
  let rows := size a0 in
  rbind (atom_size self) (fun cols =>
  rbind (index0 values) (fun v0 =>
  match value (M self) with
  | None => raise TypeError
  | Some m =>
      let grad_vals := map (grad_elem m) v0 in
      ok [elemwise_grad_to_diag grad_vals rows cols]
  end))).

(** ** Linear operator trees

    Modelled from the spec: [cvxpy.lin_ops.lin_utils] is not in the sources
    at hand.  Its constructors are kept as the free syntax of the reduced
    graph; [get_id] is a counter threaded through the reduction. *)

Definition shape_t : Type := list nat.

#[local] Set Warnings "-register-all".

Inductive LinOp : Type :=
| VARIABLE (shape : shape_t) (id : nat)
| SCALAR_CONST (shape : shape_t) (v : option Q)
| PARAM (shape : shape_t) (p : Expression)
| MUL (lh rh : LinOp)
| SUM (ops : list LinOp).

Inductive LinConstr : Type :=
| LinEqConstr (lh : LinOp) (rh : option LinOp)
| LinLeqConstr (lh : LinOp) (rh : option LinOp)
| LinGeqConstr (lh : LinOp) (rh : option LinOp)
| SquareEpi (x t : LinOp).

(** A reduction step: reads and advances the identifier counter, may
    raise. *)
Definition cmd (A : Type) : Type := nat -> result (A * nat).

Definition cret {A} (a : A) : cmd A := fun c => ok (a, c).

Definition cbind {A B} (m : cmd A) (k : A -> cmd B) : cmd B :=
  fun c => match m c with
           | inl e => inl e
           | inr (a, c') => k a c'
           end.

Definition lift {A} (r : result A) : cmd A :=
  fun c => match r with
           | inl e => inl e
           | inr a => ok (a, c)
           end.

Declare Scope cmd_scope.
Delimit Scope cmd_scope with cmd.
Notation "x <- m ;; k" := (cbind m (fun x => k))
  (at level 61, m at next level, right associativity) : cmd_scope.
Notation "' pat <- m ;; k" := (cbind m (fun x => match x with pat => k end))
  (at level 61, pat pattern, m at next level, right associativity) : cmd_scope.

Module lu.

Definition get_id : cmd nat := fun c => ok (c, S c).

Definition create_var (shape : shape_t) : cmd LinOp :=
  cbind get_id (fun i => cret (VARIABLE shape i)).

Definition create_const (v : option Q) (shape : shape_t) : LinOp :=
  SCALAR_CONST shape v.

Definition create_param (p : Expression) (shape : shape_t) : LinOp :=
  PARAM shape p.

Definition mul_expr (lh rh : LinOp) : LinOp := MUL lh rh.

Definition sum_expr (ops : list LinOp) : LinOp := SUM ops.

Definition create_eq (lh rh : LinOp) : LinConstr := LinEqConstr lh (Some rh).

Definition create_leq (lh rh : LinOp) : LinConstr := LinLeqConstr lh (Some rh).

Definition create_geq (lh : LinOp) : LinConstr := LinGeqConstr lh None.

End lu.

(** The data [power.graph_implementation] receives: the exponent and the
    weight pair. *)
Definition power_data : Type := (Q * (Q * Q))%type.

(** The type of an atom's reducer. *)
Definition reducer (D : Type) : Type :=
  list LinOp -> shape_t -> D -> cmd (LinOp * list LinConstr).

Section Reducer.

Local Open Scope cmd_scope.

(** The reducers of the two primitives the Huber reducer delegates to. *)
Variable power_graph_implementation : reducer power_data.
Variable abs_graph_implementation : reducer unit.

(** [huber.graph_implementation(arg_objs, shape, data=None)]. *)
Definition graph_implementation (arg_objs : list LinOp) (shape : shape_t)
           (data : option (list Expression)) : cmd (LinOp * list LinConstr) :=
  M0 <- lift (match data with
              | None => raise TypeError
              | Some d => index0 d
              end) ;;
  x <- lift (index0 arg_objs) ;;
  n <- lu.create_var shape ;;
  s <- lu.create_var shape ;;
  let two := lu.create_const (Some 2) [1; 1]%nat in
  let M1 := if isinstance_Parameter M0
            then lu.create_param M0 [1; 1]%nat
            else lu.create_const (value M0) [1; 1]%nat in
  ' (n2, constr_sq) <- power_graph_implementation [n] shape (2, (1 # 2, 1 # 2)) ;;
  ' (abs_s, constr_abs) <- abs_graph_implementation [s] shape tt ;;
  let M_abs_s := lu.mul_expr M1 abs_s in
  let obj := lu.sum_expr [n2; lu.mul_expr two M_abs_s] in
  let constraints := constr_sq ++ constr_abs in
  let constraints := constraints ++ [lu.create_eq x (lu.sum_expr [n; s])] in
  cret (obj, constraints).

End Reducer.

(** Modelled from the spec: [power.graph_implementation] is not in the
    sources at hand.  For the square it introduces one epigraph variable
    [t] and the epigraph constraint of the square primitive between its
    argument and [t]. *)
Definition power_graph_implementation : reducer power_data :=
  fun arg_objs shape data =>
    (x <- lift (index0 arg_objs) ;;
     t <- lu.create_var shape ;;
     cret (t, [SquareEpi x t]))%cmd.

(** Modelled from the spec: [abs.graph_implementation] is not in the
    sources at hand.  It introduces one epigraph variable [t] with
    [x + t >= 0] and [x <= t]. *)
Definition abs_graph_implementation : reducer unit :=
  fun arg_objs shape _ =>
    (x <- lift (index0 arg_objs) ;;
     t <- lu.create_var shape ;;
     cret (t, [lu.create_geq (lu.sum_expr [x; t]); lu.create_leq x t]))%cmd.

(** The Huber reducer with the two primitive reducers it imports. *)
Definition huber_graph_implementation :=
  graph_implementation power_graph_implementation abs_graph_implementation.

(** ** Meaning of a reduced graph at one scalar position

    An assignment gives every variable identifier a number.  All operators
    the reducer emits act elementwise (the coefficients are 1x1 and
    broadcast), so a graph is read at one scalar position. *)

Definition assignment : Type := nat -> Q.

Definition Qadd_opt (a b : option Q) : option Q :=
  match a, b with
  | Some u, Some v => Some (u + v)
  | _, _ => None
  end.

Definition Qmul_opt (a b : option Q) : option Q :=
  match a, b with
  | Some u, Some v => Some (u * v)
  | _, _ => None
  end.

Fixpoint eval (rho : assignment) (e : LinOp) : option Q :=
  match e with
  | VARIABLE _ i => Some (rho i)
  | SCALAR_CONST _ v => v
  | PARAM _ p => value p
  | MUL lh rh => Qmul_opt (eval rho lh) (eval rho rh)
  | SUM ops =>
      (fix sum (l : list LinOp) : option Q :=
         match l with
         | [] => Some 0
         | o :: l' => Qadd_opt (eval rho o) (sum l')
         end) ops
  end.

(** The right-hand side of a constraint; an absent one is zero. *)
Definition eval_rhs (rho : assignment) (rh : option LinOp) : option Q :=
  match rh with
  | None => Some 0
  | Some e => eval rho e
  end.

Definition rel_opt (R : Q -> Q -> Prop) (a b : option Q) : Prop :=
  match a, b with
  | Some u, Some v => R u v
  | _, _ => False
  end.

Definition sat (rho : assignment) (c : LinConstr) : Prop :=
  match c with
  | LinEqConstr lh rh => rel_opt Qeq (eval rho lh) (eval_rhs rho rh)
  | LinLeqConstr lh rh => rel_opt Qle (eval rho lh) (eval_rhs rho rh)
  | LinGeqConstr lh rh => rel_opt (fun u v => v <= u) (eval rho lh) (eval_rhs rho rh)
  | SquareEpi x t => rel_opt (fun u v => u * u <= v) (eval rho x) (eval rho t)
  end.

Definition feasible (rho : assignment) (cs : list LinConstr) : Prop :=
  Forall (sat rho) cs.

(** The objective the source's docstring gives for the reduced problem:
    [n^2 + 2M|s|]. *)
Definition split_objective (m n s : Q) : Q := n * n + 2 * m * Qabs s.

(** [(n, s)] is a split of [x] at which the objective is least. *)
Definition minimal_split (m x n s : Q) : Prop :=
  n + s == x /\
  forall n' s', n' + s' == x -> split_objective m n s <= split_objective m n' s'.

(** The split the Huber function picks: [n] is [x] clipped to [[-m, m]]. *)
Definition clip (m x : Q) : Q := Qmax (- m) (Qmin x m).

(** [d] is the derivative of [f] at [x], for a function given by its
    graph ([f x v] reads: the code returns the finite value [v] at [x]). *)
Definition derivative_at (f : Q -> Q -> Prop) (x d : Q) : Prop :=
  forall eps, 0 < eps ->
  exists delta, 0 < delta /\
    forall h, Qabs h < delta ->
    exists v0 v1, f x v0 /\ f (x + h) v1 /\
      Qabs (v1 - v0 - d * h) <= eps * Qabs h.

(** [numeric] returns the finite value [v] at the scalar [x]. *)
Definition evaluates (m x v : Q) : Prop := huber_elem m x = Fin v.

(** [l] with position [k] replaced by [v]. *)
Fixpoint update (l : list Q) (k : nat) (v : Q) : list Q :=
  match l, k with
  | [], _ => []
  | _ :: l', O => v :: l'
  | a :: l', S k' => a :: update l' k' v
  end.

(** [M] passes the validation gate. *)
Definition valid_M (m : Expression) : bool :=
  is_nonneg m && is_constant m && is_scalar m.

(** The output element [j] of [numeric], as a function of the argument
    element [k] (the other elements stay as in [xs]). *)
Definition output_of_input (self : huber) (xs : list Q) (j k : nat) (t v : Q) : Prop :=
  exists ys, numeric self [update xs k t] = ok ys /\ nth_error ys j = Some (Fin v).

(** Every variable of [e] has an identifier below [c]. *)
Fixpoint below (c : nat) (e : LinOp) : bool :=
  match e with
  | VARIABLE _ i => (i <? c)%nat
  | SCALAR_CONST _ _ => true
  | PARAM _ _ => true
  | MUL lh rh => below c lh && below c rh
  | SUM ops => forallb (below c) ops
  end.

(** The assignment that extends [rho0] to the auxiliary variables of a
    reduction started at counter [c], with the split [n = clip m x]. *)
Definition optimal_assignment (rho0 : assignment) (c : nat) (m x : Q) : assignment :=
  fun i =>
    if (i <? c)%nat then rho0 i
    else if (i =? c)%nat then clip m x
    else if (i =? S c)%nat then x - clip m x
    else if (i =? S (S c))%nat then clip m x * clip m x
    else Qabs (x - clip m x).

Section LinOp_induction.

Variable P : LinOp -> Prop.
Hypothesis P_var : forall shape i, P (VARIABLE shape i).
Hypothesis P_const : forall shape v, P (SCALAR_CONST shape v).
Hypothesis P_param : forall shape p, P (PARAM shape p).
Hypothesis P_mul : forall lh rh, P lh -> P rh -> P (MUL lh rh).
Hypothesis P_sum : forall ops, Forall P ops -> P (SUM ops).

Fixpoint LinOp_nested_ind (e : LinOp) : P e :=
  match e with
  | VARIABLE shape i => P_var shape i
  | SCALAR_CONST shape v => P_const shape v
  | PARAM shape p => P_param shape p
  | MUL lh rh => P_mul lh rh (LinOp_nested_ind lh) (LinOp_nested_ind rh)
  | SUM ops =>
      P_sum ops
            ((fix all (l : list LinOp) : Forall P l :=
                match l with
                | [] => Forall_nil P
                | o :: l' => Forall_cons o (LinOp_nested_ind o) (all l')
                end) ops)
  end.

End LinOp_induction.

(** The finite value of [numeric] at one scalar position, for [0 <= m]. *)
Definition huber_fin (m x : Q) : Q :=
  2 * (if Qle_bool (Qabs x) m
       then (1 # 2) * x * x
       else m * (Qabs x - (1 # 2) * m)).

(** * Properties *)

(** ** The embedding at concrete inputs *)

Example numeric_run :
  numeric {| M := Constant 1; args := [Constant 3] |} [[3; 1 # 2; - (2); 1]]
  = ok [Fin (10 # 2); Fin (2 # 8); Fin (6 # 2); Fin (2 # 2)].
Proof. reflexivity. Qed.

Example numeric_negative_M_run :
  numeric {| M := Constant (- (1)); args := [Constant 3] |} [[3; 1 # 2]]
  = ok [PInf; PInf].
Proof. reflexivity. Qed.

Example init_negative_M_run :
  huber_init (Num 3) (Some (Num (- (1))))
  = raise (ValueError "M must be a non-negative scalar constant.").
Proof. reflexivity. Qed.

Example graph_run :
  huber_graph_implementation [VARIABLE [2]%nat 0] [2]%nat (Some [Constant (1 # 2)]) 1%nat
  = ok ((SUM [VARIABLE [2]%nat 3;
              MUL (SCALAR_CONST [1; 1]%nat (Some 2))
                  (MUL (SCALAR_CONST [1; 1]%nat (Some (1 # 2))) (VARIABLE [2]%nat 4))],
         [SquareEpi (VARIABLE [2]%nat 1) (VARIABLE [2]%nat 3);
          LinGeqConstr (SUM [VARIABLE [2]%nat 2; VARIABLE [2]%nat 4]) None;
          LinLeqConstr (VARIABLE [2]%nat 2) (Some (VARIABLE [2]%nat 4));
          LinEqConstr (VARIABLE [2]%nat 0)
                      (Some (SUM [VARIABLE [2]%nat 1; VARIABLE [2]%nat 2]))]),
        5%nat).
Proof. reflexivity. Qed.

Example graph_without_data_run :
  huber_graph_implementation [VARIABLE [2]%nat 0] [2]%nat None 1%nat = raise TypeError.
Proof. reflexivity. Qed.

(** ** Case analysis on rational numbers *)

Lemma Qabs_cases (x : Q) :
  (0 <= x /\ Qabs x == x) \/ (x < 0 /\ Qabs x == - x).
Proof.
  destruct (Qlt_le_dec x 0) as [Hneg | Hpos].
  - right. split; [exact Hneg |]. apply Qabs_neg. lra.
  - left. split; [exact Hpos |]. apply Qabs_pos. exact Hpos.
Qed.

Lemma Qmin_cases (a b : Q) :
  (a <= b /\ Qmin a b == a) \/ (b < a /\ Qmin a b == b).
Proof.
  destruct (Q.min_spec a b) as [[Hlt Heq] | [Hle Heq]].
  - left. split; [lra | exact Heq].
  - destruct (Qlt_le_dec b a) as [Hba | Hab].
    + right. split; [exact Hba | exact Heq].
    + left. split; [exact Hab |]. rewrite Heq. lra.
Qed.

Lemma Qmax_cases (a b : Q) :
  (b <= a /\ Qmax a b == a) \/ (a < b /\ Qmax a b == b).
Proof.
  destruct (Q.max_spec a b) as [[Hlt Heq] | [Hle Heq]].
  - right. split; [exact Hlt | exact Heq].
  - left. split; [exact Hle | exact Heq].
Qed.

Lemma np_sign_cases (x : Q) :
  (x < 0 /\ np_sign x = -1) \/ (x == 0 /\ np_sign x = 0) \/ (0 < x /\ np_sign x = 1).
Proof.
  unfold np_sign. destruct (Qcompare_spec x 0) as [Heq | Hlt | Hgt].
  - right. left. split; [exact Heq | reflexivity].
  - left. split; [exact Hlt | reflexivity].
  - right. right. split; [exact Hgt | reflexivity].
Qed.

Lemma Qle_bool_cases (a b : Q) :
  (a <= b /\ Qle_bool a b = true) \/ (b < a /\ Qle_bool a b = false).
Proof.
  destruct (Qle_bool a b) eqn:E.
  - left. split; [apply Qle_bool_iff; exact E | reflexivity].
  - right. split; [| reflexivity].
    apply Qnot_le_lt. intro H. apply Qle_bool_iff in H. congruence.
Qed.

Lemma Qsquare_nonneg (a : Q) : 0 <= a * a.
Proof.
  destruct (Qlt_le_dec a 0) as [Hneg | Hpos].
  - assert (H : 0 <= (- a) * (- a)) by (apply Qmult_le_0_compat; lra).
    lra.
  - apply Qmult_le_0_compat; exact Hpos.
Qed.

(** ** The numeric evaluator *)

Lemma huber_elem_fin (m x : Q) :
  0 <= m -> huber_elem m x = Fin (huber_fin m x).
Proof.
  intro Hm. unfold huber_elem, scipy_huber, huber_fin, Qlt_bool.
  destruct (Qle_bool_cases 0 m) as [[_ E] | [Hlt _]]; [| lra].
  rewrite E. simpl.
  destruct (Qle_bool (Qabs x) m); reflexivity.
Qed.

Lemma huber_fin_quadratic (m x : Q) :
  Qabs x <= m -> huber_fin m x == x * x.
Proof.
  intro H. unfold huber_fin.
  destruct (Qle_bool_cases (Qabs x) m) as [[_ E] | [Hlt _]]; [| lra].
  rewrite E. lra.
Qed.

Lemma huber_fin_linear (m x : Q) :
  m < Qabs x -> huber_fin m x == 2 * m * Qabs x - m * m.
Proof.
  intro H. unfold huber_fin.
  destruct (Qle_bool_cases (Qabs x) m) as [[Hle _] | [_ E]]; [lra |].
  rewrite E. lra.
Qed.

(** The three regions of the argument, with the value and the subgradient
    entry as polynomials on each. *)
Lemma huber_regions (m x : Q) :
  0 <= m ->
  (- m <= x /\ x <= m /\ huber_fin m x == x * x /\ grad_elem m x == 2 * x) \/
  (m < x /\ huber_fin m x == 2 * m * x - m * m /\ grad_elem m x == 2 * m) \/
  (x < - m /\ huber_fin m x == - (2 * m * x) - m * m /\ grad_elem m x == - (2 * m)).
Proof.
  intro Hm. unfold grad_elem.
  destruct (Qabs_cases x) as [[Hx Ha] | [Hx Ha]];
    destruct (Qle_bool_cases (Qabs x) m) as [[Hc _] | [Hc _]];
    destruct (Qmin_cases (Qabs x) m) as [[Hmn Em] | [Hmn Em]];
    destruct (np_sign_cases x) as [[Hs Es] | [[Hs Es] | [Hs Es]]];
    try lra; rewrite Es.
  all: try (left; repeat split; [lra | lra | rewrite huber_fin_quadratic by exact Hc; lra | lra]).
  all: try (right; left; repeat split;
            [lra | rewrite huber_fin_linear by exact Hc; rewrite Ha; lra | lra]).
  all: try (right; right; repeat split;
            [lra | rewrite huber_fin_linear by exact Hc; rewrite Ha; lra | lra]).
Qed.

(** The value lies above its tangent at every point, by at most the
    square of the distance. *)
Lemma huber_tangent_bounds (m x y : Q) :
  0 <= m ->
  0 <= huber_fin m y - huber_fin m x - grad_elem m x * (y - x) /\
  huber_fin m y - huber_fin m x - grad_elem m x * (y - x) <= (y - x) * (y - x).
Proof.
  intro Hm.
  destruct (huber_regions m x Hm) as [(X1 & X2 & Fx & Gx) | [(X1 & Fx & Gx) | (X1 & Fx & Gx)]];
    destruct (huber_regions m y Hm) as [(Y1 & Y2 & Fy & _) | [(Y1 & Fy & _) | (Y1 & Fy & _)]];
    rewrite Fx, Fy, Gx;
    pose proof (Qsquare_nonneg (y - x)) as Syx;
    pose proof (Qsquare_nonneg (y - m)) as Sym;
    pose proof (Qsquare_nonneg (y + m)) as Sym';
    split; nra.
Qed.

Lemma grad_elem_bound (m x : Q) :
  0 <= m -> - (2 * m) <= grad_elem m x /\ grad_elem m x <= 2 * m.
Proof.
  intro Hm.
  destruct (huber_regions m x Hm) as [(X1 & X2 & _ & Gx) | [(X1 & _ & Gx) | (X1 & _ & Gx)]];
    rewrite Gx; lra.
Qed.

Lemma huber_fin_nonneg (m x : Q) : 0 <= m -> 0 <= huber_fin m x.
Proof.
  intro Hm.
  destruct (huber_regions m x Hm) as [(X1 & X2 & Fx & _) | [(X1 & Fx & _) | (X1 & Fx & _)]];
    rewrite Fx; nra.
Qed.

Lemma huber_fin_convex (m x y t : Q) :
  0 <= m -> 0 <= t -> t <= 1 ->
  huber_fin m (t * x + (1 - t) * y) <= t * huber_fin m x + (1 - t) * huber_fin m y.
Proof.
  intros Hm Ht0 Ht1.
  set (z := t * x + (1 - t) * y).
  destruct (huber_tangent_bounds m z x Hm) as [Hx _].
  destruct (huber_tangent_bounds m z y Hm) as [Hy _].
  assert (Ex : x - z == (1 - t) * (x - y)) by (unfold z; lra).
  assert (Ey : y - z == - (t * (x - y))) by (unfold z; lra).
  rewrite Ex in Hx. rewrite Ey in Hy.
  set (g := grad_elem m z) in *. set (fz := huber_fin m z) in *.
  set (fx := huber_fin m x) in *. set (fy := huber_fin m y) in *.
  nra.
Qed.

Lemma huber_fin_lipschitz (m x y : Q) :
  0 <= m -> Qabs (huber_fin m y - huber_fin m x) <= 2 * m * Qabs (y - x).
Proof.
  intro Hm.
  destruct (huber_tangent_bounds m x y Hm) as [Hxy _].
  destruct (huber_tangent_bounds m y x Hm) as [Hyx _].
  destruct (grad_elem_bound m x Hm) as [Gx1 Gx2].
  destruct (grad_elem_bound m y Hm) as [Gy1 Gy2].
  set (gx := grad_elem m x) in *. set (gy := grad_elem m y) in *.
  set (fx := huber_fin m x) in *. set (fy := huber_fin m y) in *.
  destruct (Qabs_cases (fy - fx)) as [[H1 E1] | [H1 E1]];
    destruct (Qabs_cases (y - x)) as [[H2 E2] | [H2 E2]];
    rewrite E1, E2.
  - assert (0 <= (2 * m - gy) * (y - x)) by (apply Qmult_le_0_compat; lra). lra.
  - assert (0 <= (gy + 2 * m) * (x - y)) by (apply Qmult_le_0_compat; lra). lra.
  - assert (0 <= (gx + 2 * m) * (y - x)) by (apply Qmult_le_0_compat; lra). lra.
  - assert (0 <= (2 * m - gx) * (x - y)) by (apply Qmult_le_0_compat; lra). lra.
Qed.

Lemma evaluates_fin (m x : Q) : 0 <= m -> evaluates m x (huber_fin m x).
Proof. intro Hm. unfold evaluates. apply huber_elem_fin. exact Hm. Qed.

Lemma numeric_map (self : huber) (m : Q) (xs : list Q) (rest : list (list Q)) :
  value (M self) = Some m ->
  numeric self (xs :: rest) = ok (map (huber_elem m) xs).
Proof. intro Hv. unfold numeric. rewrite Hv. reflexivity. Qed.

(** C2.  With [0 <= M], [numeric] returns, at every position of the
    argument, [x^2] where [|x| <= M] and [2M|x| - M^2] where [|x| > M]; the
    two formulas agree where [|x| = M], and the value never moves by more
    than [2M] times the move of the argument, so there is no jump. *)
Theorem numeric_piecewise (self : huber) (m : Q) (xs : list Q) (rest : list (list Q)) :
  value (M self) = Some m ->
  0 <= m ->
  exists ys,
    numeric self (xs :: rest) = ok ys /\
    Forall2 (fun x y => exists v, y = Fin v /\
                          (Qabs x <= m -> v == x * x) /\
                          (m < Qabs x -> v == 2 * m * Qabs x - m * m)) xs ys /\
    (forall x, Qabs x == m -> x * x == 2 * m * Qabs x - m * m) /\
    (forall x y, exists vx vy,
        evaluates m x vx /\ evaluates m y vy /\
        Qabs (vy - vx) <= 2 * m * Qabs (y - x)).
Proof.
  intros Hv Hm. exists (map (huber_elem m) xs).
  split; [apply numeric_map; exact Hv |].
  split; [| split].
  - induction xs as [| x xs IH]; simpl; constructor; [| exact IH].
    exists (huber_fin m x). split; [apply huber_elem_fin; exact Hm |].
    split; intro H.
    + apply huber_fin_quadratic. exact H.
    + apply huber_fin_linear. exact H.
  - intros x Hx.
    destruct (Qabs_cases x) as [[H0 Ea] | [H0 Ea]]; rewrite Ea in *; nra.
  - intros x y. exists (huber_fin m x), (huber_fin m y).
    split; [apply evaluates_fin; exact Hm |].
    split; [apply evaluates_fin; exact Hm |].
    apply huber_fin_lipschitz. exact Hm.
Qed.

Lemma numeric_piecewise_witness :
  exists ys,
    numeric {| M := Constant 1; args := [Constant 3] |} [[3; 1 # 2]] = ok ys /\
    Forall2 (fun x y => exists v, y = Fin v /\
                          (Qabs x <= 1 -> v == x * x) /\
                          (1 < Qabs x -> v == 2 * 1 * Qabs x - 1 * 1)) [3; 1 # 2] ys /\
    (forall x, Qabs x == 1 -> x * x == 2 * 1 * Qabs x - 1 * 1) /\
    (forall x y, exists vx vy,
        evaluates 1 x vx /\ evaluates 1 y vy /\
        Qabs (vy - vx) <= 2 * 1 * Qabs (y - x)).
Proof.
  apply (numeric_piecewise {| M := Constant 1; args := [Constant 3] |} 1 [3; 1 # 2] []).
  - reflexivity.
  - lra.
Defined.

(** C8.  [sign_from_args] answers (nonnegative, not nonpositive) whatever
    the argument, and with [0 <= M] the value of [numeric] is finite and
    nonnegative at every [x]. *)
Theorem sign_nonneg_sound (self : huber) :
  sign_from_args self = (true, false) /\
  forall m x, 0 <= m -> exists v, evaluates m x v /\ 0 <= v.
Proof.
  split; [reflexivity |].
  intros m x Hm. exists (huber_fin m x). split.
  - apply evaluates_fin. exact Hm.
  - apply huber_fin_nonneg. exact Hm.
Qed.

Lemma sign_nonneg_sound_witness :
  exists v, evaluates 1 (-3) v /\ 0 <= v.
Proof.
  apply (proj2 (sign_nonneg_sound {| M := Constant 1; args := [Constant (-3)] |}) 1 (-3)).
  lra.
Defined.

(** C7.  [is_atom_convex] answers true and [is_atom_concave] false for
    every atom, and with [0 <= M] the value of [numeric] is a convex
    function of the argument. *)
Theorem convex_declaration_sound (self : huber) :
  is_atom_convex self = true /\
  is_atom_concave self = false /\
  forall m x y t,
    0 <= m -> 0 <= t -> t <= 1 ->
    exists vx vy vz,
      evaluates m x vx /\ evaluates m y vy /\
      evaluates m (t * x + (1 - t) * y) vz /\
      vz <= t * vx + (1 - t) * vy.
Proof.
  split; [reflexivity |]. split; [reflexivity |].
  intros m x y t Hm Ht0 Ht1.
  exists (huber_fin m x), (huber_fin m y), (huber_fin m (t * x + (1 - t) * y)).
  repeat split; try (apply evaluates_fin; exact Hm).
  apply huber_fin_convex; assumption.
Qed.

Lemma convex_declaration_sound_witness :
  exists vx vy vz,
    evaluates 1 (-3) vx /\ evaluates 1 2 vy /\
    evaluates 1 ((1 # 4) * (-3) + (1 - (1 # 4)) * 2) vz /\
    vz <= (1 # 4) * vx + (1 - (1 # 4)) * vy.
Proof.
  apply (proj2 (proj2 (convex_declaration_sound {| M := Constant 1; args := [Constant 2] |}))
               1 (-3) 2 (1 # 4)); lra.
Defined.

(** C6.  For an argument index in range, [is_incr] answers the argument's
    declared nonnegativity and [is_decr] its declared nonpositivity; with
    neither sign declared both answer false. *)
Theorem monotonicity_from_sign (self : huber) (idx : nat) (a : Expression) :
  nth_error (args self) idx = Some a ->
  is_incr self idx = ok (is_nonneg a) /\
  is_decr self idx = ok (is_nonpos a) /\
  (is_incr self idx = ok true <-> is_nonneg a = true) /\
  (is_decr self idx = ok true <-> is_nonpos a = true) /\
  (is_nonneg a = false -> is_nonpos a = false ->
   is_incr self idx = ok false /\ is_decr self idx = ok false).
Proof.
  intro Ha. unfold is_incr, is_decr, index. rewrite Ha. simpl.
  split; [reflexivity |]. split; [reflexivity |].
  split; [| split].
  - split; intro H; [injection H as H; exact H | rewrite H; reflexivity].
  - split; intro H; [injection H as H; exact H | rewrite H; reflexivity].
  - intros Hn Hp. rewrite Hn, Hp. split; reflexivity.
Qed.

Lemma monotonicity_from_sign_witness :
  let x := mkExpression ClsVariable true false false false 4%nat None in
  let self := {| M := Constant 1; args := [x] |} in
  is_incr self 0 = ok (is_nonneg x) /\
  is_decr self 0 = ok (is_nonpos x) /\
  (is_incr self 0 = ok true <-> is_nonneg x = true) /\
  (is_decr self 0 = ok true <-> is_nonpos x = true) /\
  (is_nonneg x = false -> is_nonpos x = false ->
   is_incr self 0 = ok false /\ is_decr self 0 = ok false).
Proof.
  intros x self. apply (monotonicity_from_sign self 0 x). reflexivity.
Defined.

(** ** Construction and the validation gate *)

Lemma huber_init_spec (x : py_arg) (M_arg : option py_arg) :
  let m := cast_to_const (match M_arg with None => Num 1 | Some a => a end) in
  huber_init x M_arg =
    if valid_M m
    then ok {| M := m; args := [cast_to_const x] |}
    else raise (ValueError "M must be a non-negative scalar constant.").
Proof.
  intro m. unfold huber_init, Atom_init, validate_arguments, valid_M. simpl.
  fold m. destruct (is_nonneg m && is_constant m && is_scalar m); reflexivity.
Qed.

(** C10.  An omitted [M] is the constant 1; a number given for [M] is
    wrapped as a constant expression when the atom is built; the atom
    keeps the cast expression, and [get_data] hands out that expression. *)
Theorem init_default_and_cast (x : py_arg) :
  huber_init x None = huber_init x (Some (Num 1)) /\
  huber_init x None = ok {| M := Constant 1; args := [cast_to_const x] |} /\
  (forall v,
      cls (cast_to_const (Num v)) = ClsConstant /\
      is_constant (cast_to_const (Num v)) = true /\
      value (cast_to_const (Num v)) = Some v) /\
  (forall a self,
      huber_init x (Some a) = ok self ->
      M self = cast_to_const a /\ get_data self = [cast_to_const a]).
Proof.
  split; [reflexivity |]. split; [reflexivity |]. split.
  - intro v. repeat split.
  - intros a self H. rewrite huber_init_spec in H. simpl in H.
    destruct (valid_M (cast_to_const a)); [| discriminate].
    injection H as <-. split; reflexivity.
Qed.

Lemma init_default_and_cast_witness :
  huber_init (Num 3) (Some (Num 2)) = ok {| M := Constant 2; args := [Constant 3] |} /\
  M {| M := Constant 2; args := [Constant 3] |} = cast_to_const (Num 2) /\
  get_data {| M := Constant 2; args := [Constant 3] |} = [cast_to_const (Num 2)].
Proof.
  split; [reflexivity |].
  apply (proj2 (proj2 (proj2 (init_default_and_cast (Num 3)))) (Num 2)).
  reflexivity.
Defined.



(** ** The subgradient *)

Lemma huber_fin_derivative (m x eps : Q) :
  0 <= m -> 0 < eps ->
  forall h, Qabs h < eps ->
  Qabs (huber_fin m (x + h) - huber_fin m x - grad_elem m x * h) <= eps * Qabs h.
Proof.
  intros Hm Heps h Hh.
  destruct (huber_tangent_bounds m x (x + h) Hm) as [Hlo Hhi].
  assert (E : x + h - x == h) by ring.
  rewrite E in Hlo, Hhi.
  rewrite (Qabs_pos _ Hlo).
  destruct (Qabs_cases h) as [[H0 Ea] | [H0 Ea]]; rewrite Ea in *; nra.
Qed.

Lemma update_length (l : list Q) (k : nat) (v : Q) :
  length (update l k v) = length l.
Proof.
  revert k. induction l as [| a l IH]; intros [| k]; simpl; try reflexivity.
  rewrite IH. reflexivity.
Qed.

Lemma nth_error_update_same (l : list Q) (k : nat) (v : Q) :
  (k < length l)%nat -> nth_error (update l k v) k = Some v.
Proof.
  revert k. induction l as [| a l IH]; intros [| k] Hk; simpl in *; try lia.
  - reflexivity.
  - apply IH. lia.
Qed.

Lemma nth_error_update_other (l : list Q) (j k : nat) (v : Q) :
  j <> k -> nth_error (update l k v) j = nth_error l j.
Proof.
  revert j k. induction l as [| a l IH]; intros [| j] [| k] Hjk; simpl;
    try reflexivity; try congruence.
  apply IH. congruence.
Qed.

Lemma nth_error_nth_Q (l : list Q) (j : nat) :
  (j < length l)%nat -> nth_error l j = Some (nth j l 0).
Proof.
  intro Hj. apply nth_error_nth'. exact Hj.
Qed.

Lemma derivative_at_Qeq (f : Q -> Q -> Prop) (x d d' : Q) :
  d == d' -> derivative_at f x d -> derivative_at f x d'.
Proof.
  intros Hd H eps Heps. destruct (H eps Heps) as (delta & Hdelta & Hh).
  exists delta. split; [exact Hdelta |]. intros h Hlt.
  destruct (Hh h Hlt) as (v0 & v1 & F0 & F1 & Hb).
  exists v0, v1. split; [exact F0 |]. split; [exact F1 |].
  rewrite <- Hd. exact Hb.
Qed.

Lemma entry_diag (vals : list Q) (n j k : nat) :
  (j < n)%nat -> (k < n)%nat ->
  entry (elemwise_grad_to_diag vals n n) j k =
  if (j =? k)%nat then nth j vals 0 else 0.
Proof.
  intros Hj Hk. unfold entry, elemwise_grad_to_diag. simpl.
  destruct (Nat.ltb_spec j n); [| lia].
  destruct (Nat.ltb_spec k n); [| lia].
  rewrite !andb_true_r. reflexivity.
Qed.

Lemma nth_map_grad (m : Q) (xs : list Q) (j : nat) :
  (j < length xs)%nat ->
  nth j (map (grad_elem m) xs) 0 = grad_elem m (nth j xs 0).
Proof.
  intro Hj. rewrite (nth_indep _ 0 (grad_elem m 0)) by (rewrite length_map; exact Hj).
  apply map_nth.
Qed.

Lemma output_of_input_at (self : huber) (m : Q) (xs : list Q) (j k : nat) (t : Q) :
  value (M self) = Some m -> 0 <= m ->
  (j < length xs)%nat -> (k < length xs)%nat ->
  output_of_input self xs j k t
    (huber_fin m (if (j =? k)%nat then t else nth j xs 0)).
Proof.
  intros Hv Hm Hj Hk. unfold output_of_input.
  exists (map (huber_elem m) (update xs k t)).
  split; [apply numeric_map; exact Hv |].
  rewrite nth_error_map.
  destruct (Nat.eqb_spec j k) as [-> | Hjk].
  - rewrite nth_error_update_same by exact Hk. simpl.
    rewrite huber_elem_fin by exact Hm. reflexivity.
  - rewrite nth_error_update_other by exact Hjk.
    rewrite nth_error_nth_Q by exact Hj. simpl.
    rewrite huber_elem_fin by exact Hm. reflexivity.
Qed.

(** C5.  With [0 <= M], [_grad] returns one matrix; its entry in row [j],
    column [k] is [2 sign(x_j) min(|x_j|, M)] on the diagonal and zero off
    it, and it is the derivative of output element [j] with respect to
    argument element [k].  The diagonal entry is [2x] where [|x| <= M],
    [2M] where [x > M] and [-2M] where [x < -M]. *)
Theorem grad_diagonal_derivative (self : huber) (a0 : Expression)
        (arest : list Expression) (m : Q) (xs : list Q) (vrest : list (list Q)) :
  args self = a0 :: arest ->
  value (M self) = Some m ->
  0 <= m ->
  length xs = size a0 ->
  exists D,
    _grad self (xs :: vrest) = ok [D] /\
    (forall j k, (j < length xs)%nat -> (k < length xs)%nat ->
       entry D j k =
         (if (j =? k)%nat
          then 2 * (np_sign (nth j xs 0) * Qmin (Qabs (nth j xs 0)) m)
          else 0) /\
       derivative_at (output_of_input self xs j k) (nth k xs 0) (entry D j k)) /\
    (forall x,
       (Qabs x <= m -> 2 * (np_sign x * Qmin (Qabs x) m) == 2 * x) /\
       (m < x -> 2 * (np_sign x * Qmin (Qabs x) m) == 2 * m) /\
       (x < - m -> 2 * (np_sign x * Qmin (Qabs x) m) == - (2 * m))).
Proof.
  intros Ha Hv Hm Hlen.
  exists (elemwise_grad_to_diag (map (grad_elem m) xs) (size a0) (size a0)).
  split; [| split].
  - unfold _grad, atom_size. rewrite Ha, Hv. reflexivity.
  - intros j k Hj Hk.
    assert (He : entry (elemwise_grad_to_diag (map (grad_elem m) xs) (size a0) (size a0)) j k =
                 if (j =? k)%nat then grad_elem m (nth j xs 0) else 0).
    { rewrite entry_diag by lia. rewrite nth_map_grad by exact Hj. reflexivity. }
    split; [exact He |].
    rewrite He. intros eps Heps. exists eps. split; [exact Heps |].
    intros h Hh.
    exists (huber_fin m (if (j =? k)%nat then nth k xs 0 else nth j xs 0)),
           (huber_fin m (if (j =? k)%nat then nth k xs 0 + h else nth j xs 0)).
    split; [apply output_of_input_at; assumption |].
    split; [apply output_of_input_at; assumption |].
    destruct (Nat.eqb_spec j k) as [-> | Hjk].
    + apply huber_fin_derivative; assumption.
    + assert (E : huber_fin m (nth j xs 0) - huber_fin m (nth j xs 0) - 0 * h == 0) by ring.
      rewrite E. simpl. pose proof (Qabs_nonneg h). nra.
  - intro x. fold (grad_elem m x).
    destruct (huber_regions m x Hm) as [(X1 & X2 & _ & Gx) | [(X1 & _ & Gx) | (X1 & _ & Gx)]];
      destruct (Qabs_cases x) as [[H0 Ea] | [H0 Ea]];
      rewrite Gx, Ea; repeat split; intros; lra.
Qed.

Lemma grad_diagonal_derivative_witness :
  let a0 := mkExpression ClsVariable false false false false 3%nat None in
  let self := {| M := Constant 1; args := [a0] |} in
  let xs := [3; 1 # 2; - (2)] in
  exists D,
    _grad self [xs] = ok [D] /\
    (forall j k, (j < length xs)%nat -> (k < length xs)%nat ->
       entry D j k =
         (if (j =? k)%nat
          then 2 * (np_sign (nth j xs 0) * Qmin (Qabs (nth j xs 0)) 1)
          else 0) /\
       derivative_at (output_of_input self xs j k) (nth k xs 0) (entry D j k)) /\
    (forall x,
       (Qabs x <= 1 -> 2 * (np_sign x * Qmin (Qabs x) 1) == 2 * x) /\
       (1 < x -> 2 * (np_sign x * Qmin (Qabs x) 1) == 2 * 1) /\
       (x < - (1) -> 2 * (np_sign x * Qmin (Qabs x) 1) == - (2 * 1))).
Proof.
  intros a0 self xs.
  apply (grad_diagonal_derivative self a0 [] 1 xs []).
  - reflexivity.
  - reflexivity.
  - lra.
  - reflexivity.
Defined.

Example grad_run :
  _grad {| M := Constant 1;
           args := [mkExpression ClsVariable false false false false 3%nat None] |}
        [[3; 1 # 2; - (2)]]
  = ok [{| nrows := 3; ncols := 3;
           diagonal := [grad_elem 1 3; grad_elem 1 (1 # 2); grad_elem 1 (- (2))] |}].
Proof. reflexivity. Qed.

(** ** The graph reducer *)

Lemma eval_agree (c : nat) (rho rho' : assignment) (e : LinOp) :
  (forall i, (i < c)%nat -> rho i = rho' i) ->
  below c e = true ->
  eval rho e = eval rho' e.
Proof.
  intro Hag. induction e as [shape i | shape v | shape p | lh rh IHl IHr | ops IH]
    using LinOp_nested_ind; simpl; intro Hb.
  - f_equal. apply Hag. apply Nat.ltb_lt. exact Hb.
  - reflexivity.
  - reflexivity.
  - apply andb_true_iff in Hb. destruct Hb as [Hl Hr].
    rewrite (IHl Hl), (IHr Hr). reflexivity.
  - induction IH as [| o l Ho _ IHl]; simpl in *; [reflexivity |].
    apply andb_true_iff in Hb. destruct Hb as [Hbo Hbl].
    rewrite (Ho Hbo), (IHl Hbl). reflexivity.
Qed.

Lemma graph_implementation_run
      (pg : reducer power_data) (ag : reducer unit)
      (x : LinOp) (rest : list LinOp) (shape : shape_t)
      (M0 : Expression) (drest : list Expression) (c c1 c2 : nat)
      (n2 abs_s : LinOp) (constr_sq constr_abs : list LinConstr) :
  pg [VARIABLE shape c] shape (2, (1 # 2, 1 # 2)) (S (S c)) = ok ((n2, constr_sq), c1) ->
  ag [VARIABLE shape (S c)] shape tt c1 = ok ((abs_s, constr_abs), c2) ->
  graph_implementation pg ag (x :: rest) shape (Some (M0 :: drest)) c =
    ok ((SUM [n2;
              MUL (SCALAR_CONST [1; 1]%nat (Some 2))
                  (MUL (if isinstance_Parameter M0
                        then PARAM [1; 1]%nat M0
                        else SCALAR_CONST [1; 1]%nat (value M0))
                       abs_s)],
         (constr_sq ++ constr_abs) ++
         [LinEqConstr x (Some (SUM [VARIABLE shape c; VARIABLE shape (S c)]))]),
        c2).
Proof.
  intros Hsq Habs.
  unfold graph_implementation, cbind, lift, cret, lu.create_var, lu.get_id. simpl.
  unfold cbind. rewrite Hsq. unfold ok at 1. cbv beta iota.
  rewrite Habs. reflexivity.
Qed.

(** C3.  The reducer draws two fresh variables [n] and [s], both of the
    shape it is given, before either sub-reduction runs; the coefficient
    is a reference to [M] when [M] is a [Parameter] and the 1x1 constant
    holding [M.value] otherwise; the objective is
    [n2 + 2 * (M_term * abs_s)] and the constraints are those of the
    square, then those of the absolute value, then [x = n + s]. *)
Theorem graph_implementation_structure
        (pg : reducer power_data) (ag : reducer unit)
        (x : LinOp) (rest : list LinOp) (shape : shape_t)
        (M0 : Expression) (drest : list Expression) (c c1 c2 : nat)
        (n2 abs_s : LinOp) (constr_sq constr_abs : list LinConstr) :
  let n := VARIABLE shape c in
  let s := VARIABLE shape (S c) in
  pg [n] shape (2, (1 # 2, 1 # 2)) (S (S c)) = ok ((n2, constr_sq), c1) ->
  ag [s] shape tt c1 = ok ((abs_s, constr_abs), c2) ->
  exists M_term c',
    graph_implementation pg ag (x :: rest) shape (Some (M0 :: drest)) c =
      ok ((SUM [n2; MUL (SCALAR_CONST [1; 1]%nat (Some 2)) (MUL M_term abs_s)],
           constr_sq ++ constr_abs ++ [LinEqConstr x (Some (SUM [n; s]))]),
          c') /\
    (isinstance_Parameter M0 = true -> M_term = PARAM [1; 1]%nat M0) /\
    (isinstance_Parameter M0 = false -> M_term = SCALAR_CONST [1; 1]%nat (value M0)) /\
    n <> s.
Proof.
  intros n s Hsq Habs.
  exists (if isinstance_Parameter M0
          then PARAM [1; 1]%nat M0
          else SCALAR_CONST [1; 1]%nat (value M0)), c2.
  split; [| split; [| split]].
  - rewrite app_assoc.
    apply (graph_implementation_run pg ag x rest shape M0 drest c c1 c2); assumption.
  - intros ->. reflexivity.
  - intros ->. reflexivity.
  - unfold n, s. intro H. injection H as H. lia.
Qed.

Lemma graph_implementation_structure_witness :
  let p := mkExpression ClsParameter true false true true 1%nat None in
  let x := VARIABLE [3]%nat 0 in
  let n := VARIABLE [3]%nat 1 in
  let s := VARIABLE [3]%nat 2 in
  exists M_term c',
    graph_implementation power_graph_implementation abs_graph_implementation
                         [x] [3]%nat (Some [p]) 1%nat =
      ok ((SUM [VARIABLE [3]%nat 3;
                MUL (SCALAR_CONST [1; 1]%nat (Some 2)) (MUL M_term (VARIABLE [3]%nat 4))],
           [SquareEpi n (VARIABLE [3]%nat 3)] ++
           [LinGeqConstr (SUM [s; VARIABLE [3]%nat 4]) None;
            LinLeqConstr s (Some (VARIABLE [3]%nat 4))] ++
           [LinEqConstr x (Some (SUM [n; s]))]),
          c') /\
    (isinstance_Parameter p = true -> M_term = PARAM [1; 1]%nat p) /\
    (isinstance_Parameter p = false -> M_term = SCALAR_CONST [1; 1]%nat (value p)) /\
    n <> s.
Proof.
  intros p x n s.
  apply (graph_implementation_structure
           power_graph_implementation abs_graph_implementation
           x [] [3]%nat p [] 1%nat 4%nat 5%nat).
  - reflexivity.
  - reflexivity.
Defined.

(** C9.  [M = 0] passes the validation gate; the reducer builds the same
    graph as for any other constant, its objective evaluates to the value
    of the square term plus zero, and [numeric] follows the two general
    formulas. *)
Theorem zero_M_is_regular
        (arg : py_arg) (pg : reducer power_data) (ag : reducer unit)
        (x : LinOp) (rest : list LinOp) (shape : shape_t) (c c1 c2 : nat)
        (n2 abs_s : LinOp) (constr_sq constr_abs : list LinConstr)
        (rho : assignment) (a b t : Q) :
  pg [VARIABLE shape c] shape (2, (1 # 2, 1 # 2)) (S (S c)) = ok ((n2, constr_sq), c1) ->
  ag [VARIABLE shape (S c)] shape tt c1 = ok ((abs_s, constr_abs), c2) ->
  eval rho n2 = Some a ->
  eval rho abs_s = Some b ->
  exists self obj c',
    huber_init arg (Some (Num 0)) = ok self /\
    validate_arguments self = ok tt /\
    graph_implementation pg ag (x :: rest) shape (Some (get_data self)) c =
      ok ((obj,
           constr_sq ++ constr_abs ++
           [LinEqConstr x (Some (SUM [VARIABLE shape c; VARIABLE shape (S c)]))]),
          c') /\
    obj = SUM [n2; MUL (SCALAR_CONST [1; 1]%nat (Some 2))
                       (MUL (SCALAR_CONST [1; 1]%nat (Some 0)) abs_s)] /\
    (exists w, eval rho obj = Some w /\ w == a + 0) /\
    (exists v, evaluates 0 t v /\
               (Qabs t <= 0 -> v == t * t) /\
               (0 < Qabs t -> v == 2 * 0 * Qabs t - 0 * 0) /\
               v == 0).
Proof.
  intros Hsq Habs Ha Hb.
  exists {| M := Constant 0; args := [cast_to_const arg] |}.
  eexists. exists c2.
  split; [reflexivity |]. split; [reflexivity |].
  split; [| split; [reflexivity | split]].
  - rewrite app_assoc.
    apply (graph_implementation_run pg ag x rest shape (Constant 0) [] c c1 c2);
      assumption.
  - simpl. rewrite Ha, Hb. simpl. eexists. split; [reflexivity |]. ring.
  - exists (huber_fin 0 t).
    split; [apply evaluates_fin; lra |].
    split; [apply huber_fin_quadratic |].
    split; [apply huber_fin_linear |].
    destruct (Qabs_cases t) as [[H0 Ea] | [H0 Ea]];
      destruct (Qle_bool_cases (Qabs t) 0) as [[Hc _] | [Hc _]].
    + rewrite huber_fin_quadratic by exact Hc. nra.
    + rewrite huber_fin_linear by exact Hc. ring.
    + rewrite huber_fin_quadratic by exact Hc. nra.
    + rewrite huber_fin_linear by exact Hc. ring.
Qed.

Lemma zero_M_is_regular_witness :
  exists self obj c',
    huber_init (Num 3) (Some (Num 0)) = ok self /\
    validate_arguments self = ok tt /\
    graph_implementation power_graph_implementation abs_graph_implementation
                         [VARIABLE [] 0] [] (Some (get_data self)) 1%nat =
      ok ((obj,
           [SquareEpi (VARIABLE [] 1) (VARIABLE [] 3)] ++
           [LinGeqConstr (SUM [VARIABLE [] 2; VARIABLE [] 4]) None;
            LinLeqConstr (VARIABLE [] 2) (Some (VARIABLE [] 4))] ++
           [LinEqConstr (VARIABLE [] 0) (Some (SUM [VARIABLE [] 1; VARIABLE [] 2]))]),
          c') /\
    obj = SUM [VARIABLE [] 3;
               MUL (SCALAR_CONST [1; 1]%nat (Some 2))
                   (MUL (SCALAR_CONST [1; 1]%nat (Some 0)) (VARIABLE [] 4))] /\
    (exists w, eval (fun _ => 7) obj = Some w /\ w == 7 + 0) /\
    (exists v, evaluates 0 3 v /\
               (Qabs 3 <= 0 -> v == 3 * 3) /\
               (0 < Qabs 3 -> v == 2 * 0 * Qabs 3 - 0 * 0) /\
               v == 0).
Proof.
  apply (zero_M_is_regular (Num 3) power_graph_implementation abs_graph_implementation
                           (VARIABLE [] 0) [] [] 1%nat 4%nat 5%nat
                           (VARIABLE [] 3) (VARIABLE [] 4)
                           [SquareEpi (VARIABLE [] 1) (VARIABLE [] 3)]
                           [LinGeqConstr (SUM [VARIABLE [] 2; VARIABLE [] 4]) None;
                            LinLeqConstr (VARIABLE [] 2) (Some (VARIABLE [] 4))]
                           (fun _ => 7) 7 7 3).
  - reflexivity.
  - reflexivity.
  - reflexivity.
  - reflexivity.
Defined.

(** ** The reduced problem has the value of the atom *)

Lemma split_lower_bound (m x n s : Q) :
  0 <= m -> n + s == x -> huber_fin m x <= split_objective m n s.
Proof.
  intros Hm Hx. unfold split_objective.
  pose proof (Qsquare_nonneg (n - m)) as S1.
  pose proof (Qsquare_nonneg (n + m)) as S2.
  destruct (huber_regions m x Hm) as [(X1 & X2 & Fx & _) | [(X1 & Fx & _) | (X1 & Fx & _)]];
    destruct (Qabs_cases s) as [[H0 Ea] | [H0 Ea]];
    rewrite Fx, Ea.
  - assert (0 <= s * (2 * (m - x) + s)) by (apply Qmult_le_0_compat; lra). nra.
  - assert (0 <= (- s) * (2 * (m + x) - s)) by (apply Qmult_le_0_compat; lra). nra.
  - nra.
  - assert (0 <= m * (- s)) by (apply Qmult_le_0_compat; lra). nra.
  - assert (0 <= m * s) by (apply Qmult_le_0_compat; lra). nra.
  - nra.
Qed.

Lemma clip_cases (m x : Q) :
  0 <= m ->
  (- m <= x /\ x <= m /\ clip m x == x) \/
  (m < x /\ clip m x == m) \/
  (x < - m /\ clip m x == - m).
Proof.
  intro Hm. unfold clip.
  destruct (Qmin_cases x m) as [[H1 E1] | [H1 E1]];
    destruct (Qmax_cases (- m) (Qmin x m)) as [[H2 E2] | [H2 E2]];
    rewrite E1 in H2; rewrite E2, ?E1.
  - destruct (Qlt_le_dec x (- m)) as [Hlt | Hge].
    + right. right. split; [exact Hlt | reflexivity].
    + left. split; [exact Hge |]. split; [exact H1 | lra].
  - left. split; [lra |]. split; [exact H1 | reflexivity].
  - lra.
  - right. left. split; [exact H1 | reflexivity].
Qed.

Lemma clip_attains (m x : Q) :
  0 <= m ->
  split_objective m (clip m x) (x - clip m x) == huber_fin m x.
Proof.
  intro Hm. unfold split_objective.
  destruct (clip_cases m x Hm) as [(C1 & C2 & Ec) | [(C1 & Ec) | (C1 & Ec)]];
    destruct (huber_regions m x Hm) as [(X1 & X2 & Fx & _) | [(X1 & Fx & _) | (X1 & Fx & _)]];
    try lra;
    destruct (Qabs_cases (x - clip m x)) as [[H0 Ea] | [H0 Ea]];
    rewrite Ec in H0; try lra; rewrite Ea, Fx, Ec; try ring.
Qed.

Lemma clip_minimal (m x : Q) :
  0 <= m -> minimal_split m x (clip m x) (x - clip m x).
Proof.
  intro Hm. split; [ring |].
  intros n' s' Hs. rewrite clip_attains by exact Hm.
  apply split_lower_bound; assumption.
Qed.

Lemma huber_graph_run (x : LinOp) (rest : list LinOp) (shape : shape_t)
      (M0 : Expression) (drest : list Expression) (c : nat) :
  huber_graph_implementation (x :: rest) shape (Some (M0 :: drest)) c =
    ok ((SUM [VARIABLE shape (S (S c));
              MUL (SCALAR_CONST [1; 1]%nat (Some 2))
                  (MUL (if isinstance_Parameter M0
                        then PARAM [1; 1]%nat M0
                        else SCALAR_CONST [1; 1]%nat (value M0))
                       (VARIABLE shape (S (S (S c)))))],
         [SquareEpi (VARIABLE shape c) (VARIABLE shape (S (S c)));
          LinGeqConstr (SUM [VARIABLE shape (S c); VARIABLE shape (S (S (S c)))]) None;
          LinLeqConstr (VARIABLE shape (S c)) (Some (VARIABLE shape (S (S (S c)))));
          LinEqConstr x (Some (SUM [VARIABLE shape c; VARIABLE shape (S c)]))]),
        S (S (S (S c)))).
Proof. reflexivity. Qed.

Lemma eval_M_term (rho : assignment) (M0 : Expression) :
  eval rho (if isinstance_Parameter M0
            then PARAM [1; 1]%nat M0
            else SCALAR_CONST [1; 1]%nat (value M0)) = value M0.
Proof. destruct (isinstance_Parameter M0); reflexivity. Qed.

Lemma graph_lower_bound (x : LinOp) (rest : list LinOp) (shape : shape_t)
      (M0 : Expression) (drest : list Expression) (c : nat)
      (m x0 x1 : Q) (rho : assignment) (obj : LinOp) (constrs : list LinConstr) (c' : nat) :
  0 <= m -> value M0 = Some m ->
  huber_graph_implementation (x :: rest) shape (Some (M0 :: drest)) c =
    ok ((obj, constrs), c') ->
  eval rho x = Some x1 -> x1 == x0 ->
  feasible rho constrs ->
  exists w, eval rho obj = Some w /\ huber_fin m x0 <= w.
Proof.
  intros Hm Hv Hrun Hx Hx1 Hf.
  rewrite huber_graph_run in Hrun. injection Hrun as <- <- _.
  unfold feasible in Hf.
  inversion Hf as [| ? ? Hsq Hf1]; subst. clear Hf.
  inversion Hf1 as [| ? ? Hge Hf2]; subst. clear Hf1.
  inversion Hf2 as [| ? ? Hle Hf3]; subst. clear Hf2.
  inversion Hf3 as [| ? ? Heq _]; subst. clear Hf3.
  simpl in Hsq, Hge, Hle, Heq. rewrite Hx in Heq. simpl in Heq.
  simpl. rewrite eval_M_term, Hv. simpl.
  eexists. split; [reflexivity |].
  set (n := rho c) in *. set (s := rho (S c)) in *.
  set (t1 := rho (S (S c))) in *. set (t2 := rho (S (S (S c)))) in *.
  assert (Hs : n + s == x0) by lra.
  pose proof (split_lower_bound m x0 n s Hm Hs) as Hlb.
  unfold split_objective in Hlb.
  assert (Habs : Qabs s <= t2).
  { destruct (Qabs_cases s) as [[H0 Ea] | [H0 Ea]]; rewrite Ea; lra. }
  assert (0 <= m * (t2 - Qabs s)) by (apply Qmult_le_0_compat; lra).
  lra.
Qed.

Ltac decide_nat_tests :=
  repeat match goal with
         | |- context [(?a <? ?b)%nat] => destruct (Nat.ltb_spec a b); try lia
         | |- context [(?a =? ?b)%nat] => destruct (Nat.eqb_spec a b); try lia
         end.

Lemma optimal_assignment_values (rho0 : assignment) (c : nat) (m x : Q) :
  (forall i, (i < c)%nat -> optimal_assignment rho0 c m x i = rho0 i) /\
  optimal_assignment rho0 c m x c = clip m x /\
  optimal_assignment rho0 c m x (S c) = x - clip m x /\
  optimal_assignment rho0 c m x (S (S c)) = clip m x * clip m x /\
  optimal_assignment rho0 c m x (S (S (S c))) = Qabs (x - clip m x).
Proof.
  unfold optimal_assignment. repeat split; intros; decide_nat_tests; reflexivity.
Qed.

Lemma graph_attained (x : LinOp) (rest : list LinOp) (shape : shape_t)
      (M0 : Expression) (drest : list Expression) (c : nat)
      (m x0 x1 : Q) (rho0 : assignment) (obj : LinOp) (constrs : list LinConstr) (c' : nat) :
  0 <= m -> value M0 = Some m ->
  huber_graph_implementation (x :: rest) shape (Some (M0 :: drest)) c =
    ok ((obj, constrs), c') ->
  below c x = true ->
  eval rho0 x = Some x1 -> x1 == x0 ->
  (forall i, (i < c)%nat -> optimal_assignment rho0 c m x0 i = rho0 i) /\
  eval (optimal_assignment rho0 c m x0) x = Some x1 /\
  feasible (optimal_assignment rho0 c m x0) constrs /\
  exists w, eval (optimal_assignment rho0 c m x0) obj = Some w /\ w == huber_fin m x0.
Proof.
  intros Hm Hv Hrun Hb Hx Hx1.
  rewrite huber_graph_run in Hrun. injection Hrun as <- <- _.
  destruct (optimal_assignment_values rho0 c m x0) as (Hlow & En & Es & Et1 & Et2).
  assert (Hxe : eval (optimal_assignment rho0 c m x0) x = Some x1).
  { rewrite <- Hx. apply (eval_agree c); assumption. }
  split; [exact Hlow |]. split; [exact Hxe |]. split.
  - unfold feasible. repeat constructor; simpl; rewrite ?Hxe, ?En, ?Es, ?Et1, ?Et2; simpl.
    + lra.
    + destruct (Qabs_cases (x0 - clip m x0)) as [[H0 Ea] | [H0 Ea]]; rewrite Ea; lra.
    + apply Qle_Qabs.
    + lra.
  - simpl. rewrite eval_M_term, Hv, Et1, Et2. cbn [Qadd_opt Qmul_opt].
    eexists. split; [reflexivity |].
    transitivity (split_objective m (clip m x0) (x0 - clip m x0));
      [unfold split_objective; ring | apply clip_attains; exact Hm].
Qed.

Lemma worked_case_three :
  huber_fin 1 3 == 5 /\
  minimal_split 1 3 1 2 /\
  split_objective 1 1 2 == 5 /\
  (forall n s, minimal_split 1 3 n s -> n == 1 /\ s == 2).
Proof.
  assert (Hv : huber_fin 1 3 == 5) by (vm_compute; reflexivity).
  assert (Ho : split_objective 1 1 2 == 5) by (vm_compute; reflexivity).
  assert (Hmin : minimal_split 1 3 1 2).
  { split; [vm_compute; reflexivity |].
    intros n' s' Hs. rewrite Ho, <- Hv. apply split_lower_bound; [lra | exact Hs]. }
  split; [exact Hv |]. split; [exact Hmin |]. split; [exact Ho |].
  intros n s [Hs Hle].
  assert (H12 : 1 + 2 == 3) by (vm_compute; reflexivity).
  specialize (Hle 1 2 H12). rewrite Ho in Hle. unfold split_objective in Hle.
  destruct (Qabs_cases s) as [[H0 Ea] | [H0 Ea]]; rewrite Ea in Hle.
  - assert (Hsq : (n - 1) * (n - 1) <= 0) by nra.
    assert (n <= 1) by nra. assert (1 <= n) by nra.
    split; lra.
  - exfalso. nra.
Qed.

Lemma worked_case_half :
  huber_fin 1 (1 # 2) == 1 # 4 /\
  minimal_split 1 (1 # 2) (1 # 2) 0 /\
  split_objective 1 (1 # 2) 0 == 1 # 4.
Proof.
  assert (Hv : huber_fin 1 (1 # 2) == 1 # 4) by (vm_compute; reflexivity).
  assert (Ho : split_objective 1 (1 # 2) 0 == 1 # 4) by (vm_compute; reflexivity).
  split; [exact Hv |]. split; [| exact Ho].
  split; [vm_compute; reflexivity |].
  intros n' s' Hs. rewrite Ho, <- Hv. apply split_lower_bound; [lra | exact Hs].
Qed.

(** C1, as the code has it.  With [0 <= M] and [M.value = M], the value
    of [numeric] at [x] is the least value of [n^2 + 2M|s|] over the splits
    [n + s = x], attained at [n = clip(x)]; the graph the reducer emits has
    the same least objective value over its feasible assignments.  At
    [x = 3], [M = 1] the least value 5 is attained at [n = 1], [s = 2] and
    nowhere else; at [x = 1/2], [M = 1] the least value 1/4 is attained at
    [n = 1/2], [s = 0]. *)
Theorem reduction_optimal_value
        (m x0 : Q) (M0 : Expression) (x : LinOp) (rest : list LinOp)
        (shape : shape_t) (drest : list Expression) (c : nat) :
  0 <= m ->
  value M0 = Some m ->
  below c x = true ->
  exists v,
    evaluates m x0 v /\
    (forall n s, n + s == x0 -> v <= split_objective m n s) /\
    (exists n s, minimal_split m x0 n s /\ split_objective m n s == v) /\
    (exists obj constrs c',
        huber_graph_implementation (x :: rest) shape (Some (M0 :: drest)) c =
          ok ((obj, constrs), c') /\
        (forall rho x1,
            eval rho x = Some x1 -> x1 == x0 -> feasible rho constrs ->
            exists w, eval rho obj = Some w /\ v <= w) /\
        (forall rho0 x1,
            eval rho0 x = Some x1 -> x1 == x0 ->
            exists rho,
              (forall i, (i < c)%nat -> rho i = rho0 i) /\
              eval rho x = Some x1 /\
              feasible rho constrs /\
              exists w, eval rho obj = Some w /\ w == v)) /\
    (exists v3,
        evaluates 1 3 v3 /\ v3 == 5 /\
        minimal_split 1 3 1 2 /\ split_objective 1 1 2 == 5 /\
        (forall n s, minimal_split 1 3 n s -> n == 1 /\ s == 2)) /\
    (exists vh,
        evaluates 1 (1 # 2) vh /\ vh == 1 # 4 /\
        minimal_split 1 (1 # 2) (1 # 2) 0 /\ split_objective 1 (1 # 2) 0 == 1 # 4).
Proof.
  intros Hm Hv Hb. exists (huber_fin m x0).
  split; [apply evaluates_fin; exact Hm |].
  split; [intros n s; apply split_lower_bound; exact Hm |].
  split.
  { exists (clip m x0), (x0 - clip m x0).
    split; [apply clip_minimal; exact Hm | apply clip_attains; exact Hm]. }
  split.
  { eexists. eexists. eexists.
    split; [apply huber_graph_run |]. split.
    - intros rho x1 Hx Hx1 Hf.
      apply (graph_lower_bound x rest shape M0 drest c m x0 x1 rho _ _ _ Hm Hv
                               (huber_graph_run x rest shape M0 drest c) Hx Hx1 Hf).
    - intros rho0 x1 Hx Hx1.
      exists (optimal_assignment rho0 c m x0).
      apply (graph_attained x rest shape M0 drest c m x0 x1 rho0 _ _ _ Hm Hv
                            (huber_graph_run x rest shape M0 drest c) Hb Hx Hx1). }
  split.
  - destruct worked_case_three as (H1 & H2 & H3 & H4).
    exists (huber_fin 1 3). split; [apply evaluates_fin; lra |].
    split; [exact H1 |]. split; [exact H2 |]. split; [exact H3 | exact H4].
  - destruct worked_case_half as (H1 & H2 & H3).
    exists (huber_fin 1 (1 # 2)). split; [apply evaluates_fin; lra |].
    split; [exact H1 |]. split; [exact H2 | exact H3].
Qed.

(** C1, as the claim words it: at [x = 3], [M = 1] the pair [n = -1],
    [s = 2] is not a split of [x], so the least value is not attained at
    both [n = 1] and [n = -1]. *)
Lemma minimum_not_attained_at_minus_one :
  ~ (minimal_split 1 3 1 2 /\ minimal_split 1 3 (-1) 2).
Proof.
  intros [_ [Hsum _]]. vm_compute in Hsum. discriminate.
Qed.

Lemma reduction_optimal_value_witness :
  exists v,
    evaluates 1 3 v /\
    (forall n s, n + s == 3 -> v <= split_objective 1 n s) /\
    (exists n s, minimal_split 1 3 n s /\ split_objective 1 n s == v) /\
    (exists obj constrs c',
        huber_graph_implementation [VARIABLE [] 0] [] (Some [Constant 1]) 1%nat =
          ok ((obj, constrs), c') /\
        (forall rho x1,
            eval rho (VARIABLE [] 0) = Some x1 -> x1 == 3 -> feasible rho constrs ->
            exists w, eval rho obj = Some w /\ v <= w) /\
        (forall rho0 x1,
            eval rho0 (VARIABLE [] 0) = Some x1 -> x1 == 3 ->
            exists rho,
              (forall i, (i < 1)%nat -> rho i = rho0 i) /\
              eval rho (VARIABLE [] 0) = Some x1 /\
              feasible rho constrs /\
              exists w, eval rho obj = Some w /\ w == v)) /\
    (exists v3,
        evaluates 1 3 v3 /\ v3 == 5 /\
        minimal_split 1 3 1 2 /\ split_objective 1 1 2 == 5 /\
        (forall n s, minimal_split 1 3 n s -> n == 1 /\ s == 2)) /\
    (exists vh,
        evaluates 1 (1 # 2) vh /\ vh == 1 # 4 /\
        minimal_split 1 (1 # 2) (1 # 2) 0 /\ split_objective 1 (1 # 2) 0 == 1 # 4).
Proof.
  apply (reduction_optimal_value 1 3 (Constant 1) (VARIABLE [] 0) [] [] [] 1%nat).
  - lra.
  - reflexivity.
  - reflexivity.
Defined.

(** * Further properties of the atom *)

(** ** The subgradient, globally *)

(** X1.  With [0 <= M], the entry [_grad] computes at [x] is a subgradient
    of [numeric] there: the value at any [y] lies on or above the tangent
    through [x], and above it by at most [(y - x)^2]. *)
Theorem grad_is_subgradient (m x y : Q) :
  0 <= m ->
  exists vx vy,
    evaluates m x vx /\ evaluates m y vy /\
    vx + grad_elem m x * (y - x) <= vy /\
    vy <= vx + grad_elem m x * (y - x) + (y - x) * (y - x).
Proof.
  intro Hm. exists (huber_fin m x), (huber_fin m y).
  split; [apply evaluates_fin; exact Hm |].
  split; [apply evaluates_fin; exact Hm |].
  destruct (huber_tangent_bounds m x y Hm) as [Hlo Hhi].
  split; lra.
Qed.

Lemma grad_is_subgradient_witness :
  exists vx vy,
    evaluates 1 (1 # 2) vx /\ evaluates 1 (- (4)) vy /\
    vx + grad_elem 1 (1 # 2) * (- (4) - (1 # 2)) <= vy /\
    vy <= vx + grad_elem 1 (1 # 2) * (- (4) - (1 # 2))
          + (- (4) - (1 # 2)) * (- (4) - (1 # 2)).
Proof.
  apply (grad_is_subgradient 1 (1 # 2) (- (4))). lra.
Defined.

(** X2.  With [0 <= M], the entry [_grad] computes lies in [[-2M, 2M]],
    has the sign of [x], is odd in [x] and never decreases as [x] grows. *)
Theorem grad_entry_shape (m x y : Q) :
  0 <= m ->
  - (2 * m) <= grad_elem m x /\ grad_elem m x <= 2 * m /\
  0 <= x * grad_elem m x /\
  grad_elem m (- x) == - grad_elem m x /\
  (x <= y -> grad_elem m x <= grad_elem m y).
Proof.
  intro Hm.
  destruct (grad_elem_bound m x Hm) as [B1 B2].
  split; [exact B1 |]. split; [exact B2 |].
  destruct (huber_regions m x Hm) as [(X1 & X2 & _ & Gx) | [(X1 & _ & Gx) | (X1 & _ & Gx)]].
  - split; [rewrite Gx; pose proof (Qsquare_nonneg x); lra |]. split.
    + destruct (huber_regions m (- x) Hm)
        as [(N1 & N2 & _ & Gn) | [(N1 & _ & Gn) | (N1 & _ & Gn)]];
        rewrite Gx, Gn; lra.
    + intro Hxy.
      destruct (huber_regions m y Hm)
        as [(Y1 & Y2 & _ & Gy) | [(Y1 & _ & Gy) | (Y1 & _ & Gy)]];
        rewrite Gx, Gy; lra.
  - split; [rewrite Gx; assert (0 <= x * m) by (apply Qmult_le_0_compat; lra); lra |].
    split.
    + destruct (huber_regions m (- x) Hm)
        as [(N1 & N2 & _ & Gn) | [(N1 & _ & Gn) | (N1 & _ & Gn)]];
        rewrite Gx, Gn; lra.
    + intro Hxy.
      destruct (huber_regions m y Hm)
        as [(Y1 & Y2 & _ & Gy) | [(Y1 & _ & Gy) | (Y1 & _ & Gy)]];
        rewrite Gx, Gy; lra.
  - split; [rewrite Gx; assert (0 <= (- x) * m) by (apply Qmult_le_0_compat; lra); lra |].
    split.
    + destruct (huber_regions m (- x) Hm)
        as [(N1 & N2 & _ & Gn) | [(N1 & _ & Gn) | (N1 & _ & Gn)]];
        rewrite Gx, Gn; lra.
    + intro Hxy.
      destruct (huber_regions m y Hm)
        as [(Y1 & Y2 & _ & Gy) | [(Y1 & _ & Gy) | (Y1 & _ & Gy)]];
        rewrite Gx, Gy; lra.
Qed.

Lemma grad_entry_shape_witness :
  - (2 * 1) <= grad_elem 1 (- (3)) /\ grad_elem 1 (- (3)) <= 2 * 1 /\
  0 <= - (3) * grad_elem 1 (- (3)) /\
  grad_elem 1 (- - (3)) == - grad_elem 1 (- (3)) /\
  (- (3) <= 1 # 2 -> grad_elem 1 (- (3)) <= grad_elem 1 (1 # 2)).
Proof.
  apply (grad_entry_shape 1 (- (3)) (1 # 2)). lra.
Defined.

(** ** The value as a function of the argument and of [M] *)

Lemma huber_fin_abs_monotone (m x y : Q) :
  0 <= m -> Qabs x <= Qabs y -> huber_fin m x <= huber_fin m y.
Proof.
  intros Hm Hxy.
  assert (Sx : x * x == Qabs x * Qabs x)
    by (destruct (Qabs_cases x) as [[_ E] | [_ E]]; rewrite E; ring).
  assert (Sy : y * y == Qabs y * Qabs y)
    by (destruct (Qabs_cases y) as [[_ E] | [_ E]]; rewrite E; ring).
  pose proof (Qabs_nonneg x) as Ax. pose proof (Qabs_nonneg y) as Ay.
  destruct (Qle_bool_cases (Qabs x) m) as [[Cx _] | [Cx _]];
    destruct (Qle_bool_cases (Qabs y) m) as [[Cy _] | [Cy _]].
  - rewrite !huber_fin_quadratic by assumption. rewrite Sx, Sy.
    apply Qmult_le_compat_nonneg; split; assumption.
  - rewrite huber_fin_quadratic by exact Cx. rewrite huber_fin_linear by exact Cy.
    rewrite Sx. set (a := Qabs x) in *. set (b := Qabs y) in *.
    assert (0 <= (m - a) * (m + a)) by (apply Qmult_le_0_compat; lra).
    assert (0 <= m * (b - m)) by (apply Qmult_le_0_compat; lra).
    lra.
  - lra.
  - rewrite !huber_fin_linear by assumption.
    assert (0 <= m * (Qabs y - Qabs x)) by (apply Qmult_le_0_compat; lra).
    lra.
Qed.

(** X3.  With [0 <= M], [numeric] grows with [|x|]: it is even, it does
    not decrease on nonnegative arguments (where [is_incr] answers true)
    and does not increase on nonpositive ones (where [is_decr] does). *)
Theorem numeric_monotone_in_abs (m x y : Q) :
  0 <= m ->
  exists vx vy vn,
    evaluates m x vx /\ evaluates m y vy /\ evaluates m (- x) vn /\
    vn == vx /\
    (Qabs x <= Qabs y -> vx <= vy) /\
    (0 <= x -> x <= y -> vx <= vy) /\
    (y <= x -> x <= 0 -> vx <= vy).
Proof.
  intro Hm. exists (huber_fin m x), (huber_fin m y), (huber_fin m (- x)).
  split; [apply evaluates_fin; exact Hm |].
  split; [apply evaluates_fin; exact Hm |].
  split; [apply evaluates_fin; exact Hm |].
  assert (Eo : Qabs (- x) == Qabs x) by apply Qabs_opp.
  split; [| split; [| split]].
  - apply Qle_antisym; apply huber_fin_abs_monotone; try exact Hm; rewrite Eo; lra.
  - apply huber_fin_abs_monotone. exact Hm.
  - intros H0 Hxy. apply huber_fin_abs_monotone; [exact Hm |].
    rewrite !Qabs_pos by lra. exact Hxy.
  - intros Hyx H0. apply huber_fin_abs_monotone; [exact Hm |].
    rewrite !Qabs_neg by lra. lra.
Qed.

Lemma numeric_monotone_in_abs_witness :
  exists vx vy vn,
    evaluates 1 (1 # 2) vx /\ evaluates 1 3 vy /\ evaluates 1 (- (1 # 2)) vn /\
    vn == vx /\
    (Qabs (1 # 2) <= Qabs 3 -> vx <= vy) /\
    (0 <= 1 # 2 -> 1 # 2 <= 3 -> vx <= vy) /\
    (3 <= 1 # 2 -> 1 # 2 <= 0 -> vx <= vy).
Proof.
  apply (numeric_monotone_in_abs 1 (1 # 2) 3). lra.
Defined.

(** X4.  With [0 <= M], [numeric] never exceeds the square [x^2] nor the
    linear bound [2M|x|]; with [0 < M] it vanishes only at [x = 0]. *)
Theorem numeric_upper_bounds (m x : Q) :
  0 <= m ->
  exists v,
    evaluates m x v /\
    v <= x * x /\
    v <= 2 * m * Qabs x /\
    (0 < m -> (v == 0 <-> x == 0)).
Proof.
  intro Hm. exists (huber_fin m x).
  split; [apply evaluates_fin; exact Hm |].
  pose proof (Qsquare_nonneg (x - m)) as S1.
  pose proof (Qsquare_nonneg (x + m)) as S2.
  pose proof (Qsquare_nonneg m) as S3.
  destruct (huber_regions m x Hm) as [(X1 & X2 & Fx & _) | [(X1 & Fx & _) | (X1 & Fx & _)]];
    destruct (Qabs_cases x) as [[H0 Ea] | [H0 Ea]]; try lra; rewrite Fx, Ea.
  - split; [lra |]. split.
    + assert (0 <= x * (m - x)) by (apply Qmult_le_0_compat; lra).
      assert (0 <= x * m) by (apply Qmult_le_0_compat; lra). lra.
    + intro Hpos. split; intro Hz.
      * apply Qle_antisym; [| exact H0].
        destruct (Qlt_le_dec 0 x) as [Hx | Hx]; [| exact Hx].
        assert (0 < x * x) by (apply Qmult_lt_0_compat; exact Hx). lra.
      * rewrite Hz. ring.
  - split; [lra |]. split.
    + assert (0 <= (- x) * (m + x)) by (apply Qmult_le_0_compat; lra).
      assert (0 <= (- x) * m) by (apply Qmult_le_0_compat; lra). lra.
    + intro Hpos. split; intro Hz.
      * exfalso. assert (0 < (- x) * (- x)) by (apply Qmult_lt_0_compat; lra). lra.
      * rewrite Hz. ring.
  - split; [lra |]. split; [lra |].
    intro Hpos. assert (0 < m * (x - m)) by (apply Qmult_lt_0_compat; lra).
    assert (0 < m * m) by (apply Qmult_lt_0_compat; lra).
    split; intro Hz; exfalso; lra.
  - split; [lra |]. split; [lra |].
    intro Hpos. assert (0 < m * (- x - m)) by (apply Qmult_lt_0_compat; lra).
    assert (0 < m * m) by (apply Qmult_lt_0_compat; lra).
    split; intro Hz; exfalso; lra.
Qed.

Lemma numeric_upper_bounds_witness :
  exists v,
    evaluates 1 (- (3)) v /\
    v <= - (3) * - (3) /\
    v <= 2 * 1 * Qabs (- (3)) /\
    (0 < 1 -> (v == 0 <-> - (3) == 0)).
Proof.
  apply (numeric_upper_bounds 1 (- (3))). lra.
Defined.

(** X5.  [numeric] does not decrease when the threshold [M] grows. *)
Theorem numeric_monotone_in_M (m1 m2 x : Q) :
  0 <= m1 -> m1 <= m2 ->
  exists v1 v2,
    evaluates m1 x v1 /\ evaluates m2 x v2 /\ v1 <= v2.
Proof.
  intros H1 H12. assert (H2 : 0 <= m2) by lra.
  exists (huber_fin m1 x), (huber_fin m2 x).
  split; [apply evaluates_fin; exact H1 |].
  split; [apply evaluates_fin; exact H2 |].
  assert (Hs : clip m2 x + (x - clip m2 x) == x) by ring.
  pose proof (split_lower_bound m1 x _ _ H1 Hs) as Hlb.
  pose proof (clip_attains m2 x H2) as Hat.
  unfold split_objective in Hlb, Hat.
  assert (0 <= (m2 - m1) * Qabs (x - clip m2 x))
    by (apply Qmult_le_0_compat; [lra | apply Qabs_nonneg]).
  set (a := Qabs (x - clip m2 x)) in *. set (n := clip m2 x) in *.
  lra.
Qed.

Lemma numeric_monotone_in_M_witness :
  exists v1 v2,
    evaluates (1 # 2) 3 v1 /\ evaluates 2 3 v2 /\ v1 <= v2.
Proof.
  apply (numeric_monotone_in_M (1 # 2) 2 3); lra.
Defined.

(** ** The reduced problem has one solution *)

Lemma split_strong_bound (m x n s : Q) :
  0 <= m -> n + s == x ->
  huber_fin m x + (n - clip m x) * (n - clip m x) <= split_objective m n s.
Proof.
  intros Hm Hx. unfold split_objective.
  destruct (clip_cases m x Hm) as [(C1 & C2 & Ec) | [(C1 & Ec) | (C1 & Ec)]];
    destruct (huber_regions m x Hm) as [(X1 & X2 & Fx & _) | [(X1 & Fx & _) | (X1 & Fx & _)]];
    try lra;
    destruct (Qabs_cases s) as [[H0 Ea] | [H0 Ea]];
    rewrite Fx, Ec, Ea.
  - assert (0 <= s * (m - x)) by (apply Qmult_le_0_compat; lra). nra.
  - assert (0 <= (- s) * (m + x)) by (apply Qmult_le_0_compat; lra). nra.
  - nra.
  - assert (0 <= m * (- s)) by (apply Qmult_le_0_compat; lra). nra.
  - assert (0 <= m * s) by (apply Qmult_le_0_compat; lra). nra.
  - nra.
Qed.

(** X6.  With [0 <= M], the problem in the reducer's docstring, minimise
    [n^2 + 2M|s|] subject to [s + n = x], has exactly one solution: [n] is
    [x] clipped to [[-M, M]] and [s] is the rest; its value is the value
    of [numeric]. *)
Theorem minimal_split_unique (m x n s : Q) :
  0 <= m ->
  minimal_split m x n s ->
  n == clip m x /\ s == x - clip m x /\
  exists v, evaluates m x v /\ split_objective m n s == v.
Proof.
  intros Hm [Hs Hmin].
  pose proof (split_strong_bound m x n s Hm Hs) as Hsb.
  assert (Hc : clip m x + (x - clip m x) == x) by ring.
  pose proof (Hmin _ _ Hc) as Hle.
  rewrite (clip_attains m x Hm) in Hle.
  pose proof (Qsquare_nonneg (n - clip m x)) as Hsq.
  assert (Hz : (n - clip m x) * (n - clip m x) <= 0) by lra.
  assert (Hn : n == clip m x).
  { set (d := n - clip m x) in *.
    assert (Hd : d == 0).
    { apply Qle_antisym.
      - destruct (Qlt_le_dec 0 d) as [Hp | Hp]; [| exact Hp].
        assert (0 < d * d) by (apply Qmult_lt_0_compat; exact Hp). lra.
      - destruct (Qlt_le_dec d 0) as [Hp | Hp]; [| exact Hp].
        assert (0 < (- d) * (- d)) by (apply Qmult_lt_0_compat; lra). lra. }
    unfold d in Hd. lra. }
  split; [exact Hn |]. split; [lra |].
  exists (huber_fin m x). split; [apply evaluates_fin; exact Hm |].
  apply Qle_antisym; [exact Hle |].
  apply split_lower_bound; assumption.
Qed.

Lemma minimal_split_unique_witness :
  (1 # 2) == clip 2 (1 # 2) /\ 0 == (1 # 2) - clip 2 (1 # 2) /\
  exists v, evaluates 2 (1 # 2) v /\ split_objective 2 (1 # 2) 0 == v.
Proof.
  apply (minimal_split_unique 2 (1 # 2) (1 # 2) 0).
  - lra.
  - split; [vm_compute; reflexivity |].
    intros n' s' Hs.
    assert (E : split_objective 2 (1 # 2) 0 == huber_fin 2 (1 # 2))
      by (vm_compute; reflexivity).
    rewrite E. apply split_lower_bound; [lra | exact Hs].
Defined.

(** ** Atoms built by the constructor *)

Lemma huber_init_ok_inv (arg : py_arg) (M_arg : option py_arg) (self : huber) :
  huber_init arg M_arg = ok self ->
  valid_M (M self) = true /\
  M self = cast_to_const (match M_arg with None => Num 1 | Some a => a end) /\
  args self = [cast_to_const arg].
Proof.
  intro H. rewrite huber_init_spec in H. cbv zeta in H.
  destruct (valid_M (cast_to_const match M_arg with
                                   | Some a => a
                                   | None => Num 1
                                   end)) eqn:E; [| discriminate].
  injection H as <-. simpl. repeat split. exact E.
Qed.

Lemma Num_valid_iff (v : Q) : valid_M (Constant v) = true <-> 0 <= v.
Proof.
  unfold valid_M. simpl. rewrite !andb_true_r. apply Qle_bool_iff.
Qed.



(** X8.  A [Parameter] that is declared nonnegative and scalar is
    accepted as [M] even while it has no value.  The reducer then still
    succeeds and puts a reference to the parameter in the coefficient
    position, whereas [numeric] and [_grad] raise [TypeError] on every
    argument value. *)
Theorem parameter_without_value
        (arg : py_arg) (p : Expression) (x : LinOp) (rest : list LinOp)
        (shape : shape_t) (c : nat) (xs : list Q) (vrest : list (list Q)) :
  isinstance_Parameter p = true ->
  valid_M p = true ->
  value p = None ->
  exists self,
    huber_init arg (Some (Expr p)) = ok self /\
    get_data self = [p] /\
    numeric self (xs :: vrest) = raise TypeError /\
    _grad self (xs :: vrest) = raise TypeError /\
    exists constrs c',
      huber_graph_implementation (x :: rest) shape (Some (get_data self)) c =
        ok ((SUM [VARIABLE shape (S (S c));
                  MUL (SCALAR_CONST [1; 1]%nat (Some 2))
                      (MUL (PARAM [1; 1]%nat p) (VARIABLE shape (S (S (S c)))))],
             constrs), c').
Proof.
  intros Hp Hv Hn.
  exists {| M := p; args := [cast_to_const arg] |}.
  split; [| split; [| split; [| split]]].
  - rewrite huber_init_spec. cbv zeta. simpl cast_to_const at 1.
    rewrite Hv. reflexivity.
  - reflexivity.
  - unfold numeric. simpl. rewrite Hn. reflexivity.
  - unfold _grad, atom_size. simpl. rewrite Hn. reflexivity.
  - eexists. eexists. unfold get_data. simpl M.
    rewrite huber_graph_run. rewrite Hp. reflexivity.
Qed.

Lemma parameter_without_value_witness :
  let p := mkExpression ClsParameter true false true true 1%nat None in
  exists self,
    huber_init (Num 3) (Some (Expr p)) = ok self /\
    get_data self = [p] /\
    numeric self [[3; 1]] = raise TypeError /\
    _grad self [[3; 1]] = raise TypeError /\
    exists constrs c',
      huber_graph_implementation [VARIABLE [2]%nat 0] [2]%nat (Some (get_data self)) 1%nat =
        ok ((SUM [VARIABLE [2]%nat 3;
                  MUL (SCALAR_CONST [1; 1]%nat (Some 2))
                      (MUL (PARAM [1; 1]%nat p) (VARIABLE [2]%nat 4))],
             constrs), c').
Proof.
  intro p.
  apply (parameter_without_value (Num 3) p (VARIABLE [2]%nat 0) [] [2]%nat 1%nat [3; 1] []);
    reflexivity.
Defined.

(** X11.  An atom the constructor returns has exactly one argument, the
    cast of [x]: [is_incr] and [is_decr] answer at index 0 with the
    declared sign of that argument and raise [IndexError] at every other
    index; for a number [a] as argument they answer [0 <= a] and
    [a <= 0]. *)
Theorem built_atom_monotonicity (arg : py_arg) (M_arg : option py_arg) (self : huber) :
  huber_init arg M_arg = ok self ->
  args self = [cast_to_const arg] /\
  is_incr self 0 = ok (is_nonneg (cast_to_const arg)) /\
  is_decr self 0 = ok (is_nonpos (cast_to_const arg)) /\
  (forall idx, idx <> 0%nat ->
               is_incr self idx = raise IndexError /\
               is_decr self idx = raise IndexError) /\
  (forall a, arg = Num a ->
             (is_incr self 0 = ok true <-> 0 <= a) /\
             (is_decr self 0 = ok true <-> a <= 0)).
Proof.
  intro H. apply huber_init_ok_inv in H. destruct H as (_ & _ & Ha).
  unfold is_incr, is_decr, index. rewrite Ha.
  split; [reflexivity |]. split; [reflexivity |]. split; [reflexivity |].
  split.
  - intros [| idx] Hidx; [congruence |]. simpl.
    destruct idx; split; reflexivity.
  - intros a ->. simpl. split; split; intro H.
    + injection H as H. apply Qle_bool_iff. exact H.
    + apply Qle_bool_iff in H. rewrite H. reflexivity.
    + injection H as H. apply Qle_bool_iff. exact H.
    + apply Qle_bool_iff in H. rewrite H. reflexivity.
Qed.

Lemma built_atom_monotonicity_witness :
  let self := {| M := Constant 1; args := [Constant (- (2))] |} in
  args self = [cast_to_const (Num (- (2)))] /\
  is_incr self 0 = ok (is_nonneg (cast_to_const (Num (- (2))))) /\
  is_decr self 0 = ok (is_nonpos (cast_to_const (Num (- (2))))) /\
  (forall idx, idx <> 0%nat ->
               is_incr self idx = raise IndexError /\
               is_decr self idx = raise IndexError) /\
  (forall a, Num (- (2)) = Num a ->
             (is_incr self 0 = ok true <-> 0 <= a) /\
             (is_decr self 0 = ok true <-> a <= 0)).
Proof.
  intro self. apply (built_atom_monotonicity (Num (- (2))) None self). reflexivity.
Defined.

(** ** Failures of the reducer *)

(** X9.  The reducer raises [TypeError] when called without data (its
    default), [IndexError] when the data or the argument list is empty,
    and passes on unchanged whatever the square or the absolute-value
    reducer raises; the absolute-value reducer is not reached when the
    square reducer raises. *)
Theorem graph_implementation_errors
        (pg : reducer power_data) (ag : reducer unit)
        (arg_objs : list LinOp) (shape : shape_t) (c : nat) :
  graph_implementation pg ag arg_objs shape None c = raise TypeError /\
  graph_implementation pg ag arg_objs shape (Some []) c = raise IndexError /\
  (forall M0 drest,
      graph_implementation pg ag [] shape (Some (M0 :: drest)) c = raise IndexError) /\
  (forall M0 drest x rest e,
      pg [VARIABLE shape c] shape (2, (1 # 2, 1 # 2)) (S (S c)) = raise e ->
      graph_implementation pg ag (x :: rest) shape (Some (M0 :: drest)) c = raise e) /\
  (forall M0 drest x rest e n2 constr_sq c1,
      pg [VARIABLE shape c] shape (2, (1 # 2, 1 # 2)) (S (S c)) = ok ((n2, constr_sq), c1) ->
      ag [VARIABLE shape (S c)] shape tt c1 = raise e ->
      graph_implementation pg ag (x :: rest) shape (Some (M0 :: drest)) c = raise e).
Proof.
  split; [reflexivity |]. split; [reflexivity |]. split; [reflexivity |].
  split.
  - intros M0 drest x rest e Hsq.
    unfold graph_implementation, cbind, lift, cret, lu.create_var, lu.get_id. simpl.
    unfold cbind. rewrite Hsq. reflexivity.
  - intros M0 drest x rest e n2 constr_sq c1 Hsq Habs.
    unfold graph_implementation, cbind, lift, cret, lu.create_var, lu.get_id. simpl.
    unfold cbind. rewrite Hsq. unfold ok at 1. cbv beta iota.
    rewrite Habs. reflexivity.
Qed.

Lemma graph_implementation_errors_witness :
  graph_implementation power_graph_implementation (fun _ _ _ _ => raise TypeError)
                       [VARIABLE [] 0] [] (Some [Constant 1]) 1%nat
  = raise TypeError.
Proof.
  apply (proj2 (proj2 (proj2 (proj2
           (graph_implementation_errors power_graph_implementation
                                        (fun _ _ _ _ => raise TypeError)
                                        [] [] 1%nat))))
               (Constant 1) [] (VARIABLE [] 0) [] TypeError
               (VARIABLE [] 3) [SquareEpi (VARIABLE [] 1) (VARIABLE [] 3)] 4%nat).
  - reflexivity.
  - reflexivity.
Defined.

(** ** From construction to the reduced problem *)

(** X10.  For an atom built from a number [M], the graph the reducer
    builds from the atom's own [get_data] has, over its feasible
    assignments, the least objective value [numeric] returns for the
    atom: no feasible assignment goes below it, and one reaches it
    without touching the variables that existed before the reduction. *)
Theorem built_atom_reduction_agrees
        (arg : py_arg) (v x0 : Q) (self : huber)
        (x : LinOp) (rest : list LinOp) (shape : shape_t) (c : nat) :
  huber_init arg (Some (Num v)) = ok self ->
  below c x = true ->
  exists f obj constrs c',
    numeric self [[x0]] = ok [Fin f] /\
    huber_graph_implementation (x :: rest) shape (Some (get_data self)) c =
      ok ((obj, constrs), c') /\
    (forall rho x1,
        eval rho x = Some x1 -> x1 == x0 -> feasible rho constrs ->
        exists w, eval rho obj = Some w /\ f <= w) /\
    (forall rho0 x1,
        eval rho0 x = Some x1 -> x1 == x0 ->
        exists rho,
          (forall i, (i < c)%nat -> rho i = rho0 i) /\
          feasible rho constrs /\
          exists w, eval rho obj = Some w /\ w == f).
Proof.
  intros Hinit Hb.
  apply huber_init_ok_inv in Hinit. destruct Hinit as (Hv & HM & _).
  simpl in HM. rewrite HM in Hv. apply Num_valid_iff in Hv.
  assert (Hval : value (M self) = Some v) by (rewrite HM; reflexivity).
  exists (huber_fin v x0). eexists. eexists. eexists.
  split.
  { rewrite (numeric_map self v [x0] []) by exact Hval. simpl.
    rewrite huber_elem_fin by exact Hv. reflexivity. }
  split; [unfold get_data; apply huber_graph_run |].
  split.
  - intros rho x1 Hx Hx1 Hf.
    apply (graph_lower_bound x rest shape (M self) [] c v x0 x1 rho _ _ _ Hv Hval
                             (huber_graph_run x rest shape (M self) [] c) Hx Hx1 Hf).
  - intros rho0 x1 Hx Hx1.
    exists (optimal_assignment rho0 c v x0).
    destruct (graph_attained x rest shape (M self) [] c v x0 x1 rho0 _ _ _ Hv Hval
                             (huber_graph_run x rest shape (M self) [] c) Hb Hx Hx1)
      as (H1 & _ & H3 & H4).
    split; [exact H1 |]. split; [exact H3 | exact H4].
Qed.

Lemma built_atom_reduction_agrees_witness :
  let self := {| M := Constant 1; args := [Constant 0] |} in
  let x := VARIABLE [] 0 in
  exists f obj constrs c',
    numeric self [[3]] = ok [Fin f] /\
    huber_graph_implementation [x] [] (Some (get_data self)) 1%nat =
      ok ((obj, constrs), c') /\
    (forall rho x1,
        eval rho x = Some x1 -> x1 == 3 -> feasible rho constrs ->
        exists w, eval rho obj = Some w /\ f <= w) /\
    (forall rho0 x1,
        eval rho0 x = Some x1 -> x1 == 3 ->
        exists rho,
          (forall i, (i < 1)%nat -> rho i = rho0 i) /\
          feasible rho constrs /\
          exists w, eval rho obj = Some w /\ w == f).
Proof.
  intros self x.
  apply (built_atom_reduction_agrees (Num 0) 1 3 self x [] [] 1%nat); reflexivity.
Defined.

Lemma Qsquare_zero (d : Q) : d * d <= 0 -> d == 0.
Proof.
  intro Hd. apply Qle_antisym.
  - destruct (Qlt_le_dec 0 d) as [Hp | Hp]; [| exact Hp].
    assert (0 < d * d) by (apply Qmult_lt_0_compat; exact Hp). lra.
  - destruct (Qlt_le_dec d 0) as [Hp | Hp]; [| exact Hp].
    assert (0 < (- d) * (- d)) by (apply Qmult_lt_0_compat; lra). lra.
Qed.

(** X12.  With [0 <= M], a feasible assignment of the reduced graph
    whose objective does not exceed the value of [numeric] has the split
    in its auxiliary variables: [n] is [x] clipped to [[-M, M]], [s] is
    the rest, the square's epigraph variable equals [n^2] and, when
    [0 < M], the absolute value's equals [|s|]. *)
Theorem reduced_optimum_recovers_split
        (m x0 x1 v w : Q) (M0 : Expression) (x : LinOp) (rest : list LinOp)
        (shape : shape_t) (drest : list Expression) (c c' : nat)
        (rho : assignment) (obj : LinOp) (constrs : list LinConstr) :
  0 <= m ->
  value M0 = Some m ->
  huber_graph_implementation (x :: rest) shape (Some (M0 :: drest)) c =
    ok ((obj, constrs), c') ->
  eval rho x = Some x1 -> x1 == x0 ->
  feasible rho constrs ->
  eval rho obj = Some w ->
  evaluates m x0 v ->
  w <= v ->
  rho c == clip m x0 /\
  rho (S c) == x0 - clip m x0 /\
  rho (S (S c)) == rho c * rho c /\
  (0 < m -> rho (S (S (S c))) == Qabs (rho (S c))).
Proof.
  intros Hm Hv Hrun Hx Hx1 Hf Hobj Hev Hwv.
  unfold evaluates in Hev. rewrite huber_elem_fin in Hev by exact Hm.
  injection Hev as <-.
  rewrite huber_graph_run in Hrun. injection Hrun as <- <- _.
  unfold feasible in Hf.
  inversion Hf as [| ? ? Hsq Hf1]; subst. clear Hf.
  inversion Hf1 as [| ? ? Hge Hf2]; subst. clear Hf1.
  inversion Hf2 as [| ? ? Hle Hf3]; subst. clear Hf2.
  inversion Hf3 as [| ? ? Heq _]; subst. clear Hf3.
  simpl in Hsq, Hge, Hle, Heq. rewrite Hx in Heq. simpl in Heq.
  simpl in Hobj. rewrite eval_M_term, Hv in Hobj. simpl in Hobj.
  injection Hobj as <-.
  set (n := rho c) in *. set (s := rho (S c)) in *.
  set (t1 := rho (S (S c))) in *. set (t2 := rho (S (S (S c)))) in *.
  assert (Hs : n + s == x0) by lra.
  pose proof (split_strong_bound m x0 n s Hm Hs) as Hsb.
  unfold split_objective in Hsb.
  assert (Habs : Qabs s <= t2).
  { destruct (Qabs_cases s) as [[H0 Ea] | [H0 Ea]]; rewrite Ea; lra. }
  assert (Hgap : 0 <= m * (t2 - Qabs s)) by (apply Qmult_le_0_compat; lra).
  pose proof (Qsquare_nonneg (n - clip m x0)) as Hsq0.
  set (a := Qabs s) in *. set (d := n - clip m x0) in *.
  set (F := huber_fin m x0) in *.
  assert (Hd : d == 0) by (apply Qsquare_zero; lra).
  assert (Hn : n == clip m x0) by (unfold d in Hd; lra).
  split; [exact Hn |]. split; [lra |]. split; [lra |].
  intro Hpos.
  assert (Hz : m * (t2 - a) == 0) by lra.
  apply Qle_antisym; [| exact Habs].
  destruct (Qlt_le_dec a t2) as [Hlt | Hge']; [| exact Hge'].
  assert (0 < m * (t2 - a)) by (apply Qmult_lt_0_compat; lra). lra.
Qed.

Lemma reduced_optimum_recovers_split_witness :
  let rho := optimal_assignment (fun _ => 3) 1 1 3 in
  rho 1%nat == clip 1 3 /\
  rho 2%nat == 3 - clip 1 3 /\
  rho 3%nat == rho 1%nat * rho 1%nat /\
  (0 < 1 -> rho 4%nat == Qabs (rho 2%nat)).
Proof.
  intro rho.
  pose (obj := SUM [VARIABLE [] 3;
                    MUL (SCALAR_CONST [1; 1]%nat (Some 2))
                        (MUL (SCALAR_CONST [1; 1]%nat (Some 1)) (VARIABLE [] 4))]).
  pose (constrs := [SquareEpi (VARIABLE [] 1) (VARIABLE [] 3);
                    LinGeqConstr (SUM [VARIABLE [] 2; VARIABLE [] 4]) None;
                    LinLeqConstr (VARIABLE [] 2) (Some (VARIABLE [] 4));
                    LinEqConstr (VARIABLE [] 0)
                                (Some (SUM [VARIABLE [] 1; VARIABLE [] 2]))]).
  assert (Hm : 0 <= 1) by lra.
  assert (Hrun : huber_graph_implementation [VARIABLE [] 0] [] (Some [Constant 1]) 1%nat
                 = ok ((obj, constrs), 5%nat)) by reflexivity.
  assert (H33 : 3 == 3) by reflexivity.
  apply (reduced_optimum_recovers_split
           1 3 3 (huber_fin 1 3)
           (clip 1 3 * clip 1 3 + (2 * (1 * Qabs (3 - clip 1 3)) + 0))
           (Constant 1) (VARIABLE [] 0) [] [] [] 1%nat 5%nat rho obj constrs).
  - exact Hm.
  - reflexivity.
  - exact Hrun.
  - reflexivity.
  - exact H33.
  - exact (proj1 (proj2 (proj2
             (graph_attained (VARIABLE [] 0) [] [] (Constant 1) [] 1%nat 1 3 3
                             (fun _ => 3) obj constrs 5%nat
                             Hm eq_refl Hrun eq_refl eq_refl H33)))).
  - reflexivity.
  - reflexivity.
  - vm_compute. discriminate.
Defined.
